(** * BinTree: a binary search tree of NodeData pointers (bintree.h, bintree.cpp)

    The class keeps one field, [root], a pointer to a [Node]; every [Node]
    holds a [NodeData*] and two owned child links.  The embedding follows
    the C++ text function by function:

    - a [NodeData*] is an address into a store of [NodeData] objects
      ([None] is the C++ [NULL]); the store is a finite map, [new] takes a
      fresh address and [delete] removes one;
    - a [Node*] is the tree of cells reachable from it: the class creates a
      cell only with [new Node] and hands it to exactly one link, so links
      never alias.  A function that takes [Node *&] returns the new link;
    - an [int] is a [Z]; every [int] of this class is an array index below
      the array extent or a node depth, far from the 32-bit range;
    - an array [NodeData *a[]] is a list of pointers; reading or writing
      outside of it, following a pointer that is [NULL] or no longer
      allocated, and deleting an object twice have no defined behaviour in
      C++ and give [None] here;
    - [new] is taken to succeed (the [bad_alloc] handlers are not entered);
    - [copyTree] assigns [data], [left] and [right] of every cell it makes;
      [insertItem] assigns [data] only, and [struct Node] has no
      constructor: the links of a cell made by [insertItem] stay
      unassigned, and a call that reads one has no defined behaviour and
      gives [None].  [Node] is the type of the trees all of whose links are
      assigned; [RawNode] adds the unassigned link, and [insertItem] and
      what calls it work on [RawNode].

    [nodedata.h] is not part of the sources at hand: [NodeData] and its
    [operator==], [operator<] and [operator<<] are parameters.
    [cout] in [sideways] is, like the stream of [operator<<], the text
    written so far; [operator=], which compares [this] with [&rhs], acts
    on tree objects kept at their addresses. *)

From stdpp Require Import gmap strings list fin_maps sorting pretty.

Local Open Scope Z_scope.

(** ** Data model *)

(** Address of a [NodeData] object. *)
Definition addr := positive.

(** [NodeData*]: [None] is [NULL]. *)
Definition ptr := option addr.

(** [struct Node { NodeData *data; Node *left; Node *right; }], seen through
    the [Node*] that owns it: [Null] is the [NULL] link.  Every link of a
    [Node] has been assigned; [RawNode], below, is the tree in which a link
    may not have been. *)
Inductive Node : Type :=
| Null
| Cell (data : ptr) (left right : Node).

(** [class BinTree { Node *root; }]. *)
Record BinTree : Type := mkBinTree { root : Node }.

(** [lhs->data == rhs->data]: both operands are [NodeData*], so this is the
    built-in comparison of two addresses. *)
Definition ptr_eqb (p q : ptr) : bool :=
  match p, q with
  | None, None => true
  | Some a, Some b => Pos.eqb a b
  | _, _ => false
  end.

(** [BinTree::compare(const Node *lhs, const Node *rhs)]. *)
Fixpoint compare (lhs rhs : Node) : bool :=
  match lhs, rhs with
  | Null, Null => true
  | Cell d1 l1 r1, Cell d2 l2 r2 =>
      ptr_eqb d1 d2 && compare l1 l2 && compare r1 r2
  | _, _ => false
  end.

(** [BinTree::operator==] and [BinTree::operator!=]. *)
Definition op_eq (this rhs : BinTree) : bool := compare (root this) (root rhs).
Definition op_ne (this rhs : BinTree) : bool := negb (op_eq this rhs).

(** [BinTree::BinTree()] and [BinTree::isEmpty]. *)
Definition BinTree_new : BinTree := mkBinTree Null.

Definition isEmpty (this : BinTree) : bool :=
  match root this with Null => true | Cell _ _ _ => false end.

(** The data pointers of a tree in the order of the inorder walk that
    [inorderHelper] and [inorderToArray] perform: left subtree, cell, right
    subtree. *)
Fixpoint inorder (t : Node) : list ptr :=
  match t with
  | Null => []
  | Cell d l r => inorder l ++ d :: inorder r
  end.

(** Number of cells, and number of levels (0 for the empty tree). *)
Fixpoint size (t : Node) : nat :=
  match t with
  | Null => O
  | Cell _ l r => S (size l + size r)
  end.

Fixpoint height (t : Node) : nat :=
  match t with
  | Null => O
  | Cell _ l r => S (Nat.max (height l) (height r))
  end.

(** The cells of a tree after [inorderToArray] has moved their elements
    out: the same shape, every data pointer [NULL]. *)
Fixpoint strip (t : Node) : Node :=
  match t with
  | Null => Null
  | Cell _ l r => Cell None (strip l) (strip r)
  end.

(** ** Trees as [insertItem] leaves them *)

(** [insertItem] makes a cell with [treePtr = new Node;
    treePtr->data = newItem;].  Neither [left] nor [right] is assigned, and
    [struct Node] has no constructor: the two links of the new cell hold no
    determinate value.  A [RawNode] is a tree in which a link may be such a
    link, [Unassigned]; [raw t] is the tree [t], all of whose links are
    assigned. *)
Inductive RawNode : Type :=
| RNull
| RCell (data : ptr) (left right : RawNode)
| Unassigned.

Fixpoint raw (t : Node) : RawNode :=
  match t with
  | Null => RNull
  | Cell d l r => RCell d (raw l) (raw r)
  end.

(** A [BinTree] object whose cells may have been made by [insertItem]. *)
Record RawTree : Type := mkRawTree { raw_root : RawNode }.

Definition raw_tree (this : BinTree) : RawTree := mkRawTree (raw (root this)).

(** The data pointers of the cells of such a tree, in inorder. *)
Fixpoint raw_inorder (t : RawNode) : list ptr :=
  match t with
  | RNull => []
  | RCell d l r => raw_inorder l ++ d :: raw_inorder r
  | Unassigned => []
  end.

(** [compare] and [operator==] on trees whose cells may have been made by
    [insertItem]: the same text.  A call [compare(lhs->left, rhs->left)]
    reads both links to pass them, so it has no defined behaviour when one
    of them was never assigned; [&&] does not evaluate its right operand
    when the left one is false. *)
Fixpoint compare_raw (lhs rhs : RawNode) : option bool :=
  match lhs, rhs with
  | Unassigned, _ => None
  | _, Unassigned => None
  | RNull, RNull => Some true
  | RCell d1 l1 r1, RCell d2 l2 r2 =>
      if ptr_eqb d1 d2 then
        match compare_raw l1 l2 with
        | Some true => compare_raw r1 r2
        | other => other
        end
      else Some false
  | _, _ => Some false
  end.

Definition op_eq_raw (this rhs : RawTree) : option bool :=
  compare_raw (raw_root this) (raw_root rhs).

(** An array of [n] null pointers. *)
Definition empty_array (n : nat) : list ptr := replicate n None.

(** The longest run of non-null pointers at the front of a list, and the
    run that [arrayToBSTree] looks for: the non-empty slots from index 10
    up to the first empty slot or index 100. *)
Fixpoint leading (a : list ptr) : list ptr :=
  match a with
  | Some x :: a' => Some x :: leading a'
  | _ => []
  end.

Definition run_of (source : list ptr) : list ptr :=
  leading (take 90 (drop 10 source)).

(** The scan of [arrayToBSTree] stays inside the array: the run ends before
    the last slot, or the array has at least 100 slots. *)
Definition scan_in_bounds (source : list ptr) : Prop :=
  (10 + length (run_of source) < length source ∨ 100 ≤ length source)%nat.

(** The data pointers of a tree in the order in which [sideways] visits its
    cells, right subtree first, each with the value [sideways] has in
    [level] when it writes the cell: [level + 1] for the cell the call
    starts at, one more for each step down. *)
Fixpoint rows (t : Node) (level : Z) : list (Z * ptr) :=
  match t with
  | Null => []
  | Cell d l r => rows r (level + 1) ++ (level + 1, d) :: rows l (level + 1)
  end.

(** [n] times the four spaces of one indentation step. *)
Fixpoint spaces (n : nat) : string :=
  match n with
  | O => EmptyString
  | S n' => "    " +:+ spaces n'
  end.

(** [endl]. *)
Definition endl : string := String (Ascii.ascii_of_nat 10) EmptyString.

(** ** The element type *)

(** Modelled from the spec: [nodedata.h] is missing; it declares the class
    [NodeData] with [operator==] (an equality test), [operator<] (the
    "orders before" comparison of a total order) and [operator<<] (a textual
    rendering); the tree uses nothing else of an element. *)
Class NodeDataOps (NodeData : Type) : Type := {
  nd_eqb : NodeData → NodeData → bool;
  nd_ltb : NodeData → NodeData → bool;
  nd_show : NodeData → string
}.

(** Modelled from the spec: the element's equality test decides equality of
    values and its comparison is a strict total order. *)
Class NodeDataOrder (NodeData : Type) `{NodeDataOps NodeData} : Prop := {
  nd_eqb_eq : ∀ x y, nd_eqb x y = true ↔ x = y;
  nd_ltb_irrefl : ∀ x, nd_ltb x x = false;
  nd_ltb_trans : ∀ x y z,
    nd_ltb x y = true → nd_ltb y z = true → nd_ltb x z = true;
  nd_ltb_total : ∀ x y, nd_ltb x y = true ∨ x = y ∨ nd_ltb y x = true
}.

(** ** The operations of the class *)

Section Operations.
Context {NodeData : Type} `{NodeDataOps NodeData}.

(** The store of [NodeData] objects. *)
Abbreviation Store := (gmap addr NodeData).

(** [*p] for a [NodeData *p]. *)
Definition deref (h : Store) (p : ptr) : option NodeData :=
  match p with
  | Some a => h !! a
  | None => None
  end.

(** [delete p] for a non-null [p]. *)
Definition delete_data (h : Store) (a : addr) : option Store :=
  match h !! a with
  | Some _ => Some (delete a h)
  | None => None
  end.

(** [a[i]] as an rvalue and [a[i] = p]. *)
Definition load (a : list ptr) (i : Z) : option ptr :=
  if i <? 0 then None else a !! Z.to_nat i.

Definition store (a : list ptr) (i : Z) (p : ptr) : option (list ptr) :=
  if (0 <=? i) && (i <? Z.of_nat (length a))
  then Some (<[Z.to_nat i := p]> a)
  else None.

(** [BinTree::destroyTree(Node *& treePtr)]: postorder; the element is
    deleted unless the cell's data pointer is [NULL]. *)
Fixpoint destroyTree (h : Store) (treePtr : Node) : option (Store * Node) :=
  match treePtr with
  | Null => Some (h, Null)
  | Cell d l r =>
      '(h1, _) ← destroyTree h l;
      '(h2, _) ← destroyTree h1 r;
      h3 ← match d with
           | Some a => delete_data h2 a
           | None => Some h2
           end;
      Some (h3, Null)
  end.

(** [BinTree::makeEmpty]. *)
Definition makeEmpty (h : Store) (this : BinTree) : option (Store * BinTree) :=
  '(h', r) ← destroyTree h (root this);
  Some (h', mkBinTree r).

(** [BinTree::copyTree(Node *treePtr, Node *& newTreePtr)]: preorder; each
    element is duplicated by [new NodeData], copy-constructed from the
    element of the source cell. *)
Fixpoint copyTree (h : Store) (treePtr : Node) : option (Store * Node) :=
  match treePtr with
  | Cell d l r =>
      v ← deref h d;
      let a := fresh (dom h) in
      let h0 := <[a := v]> h in
      '(h1, l') ← copyTree h0 l;
      '(h2, r') ← copyTree h1 r;
      Some (h2, Cell (Some a) l' r')
  | Null => Some (h, Null)
  end.

(** [BinTree::BinTree(const BinTree& orig)]. *)
Definition BinTree_copy (h : Store) (orig : BinTree)
  : option (Store * BinTree) :=
  '(h', r) ← copyTree h (root orig);
  Some (h', mkBinTree r).

(** [BinTree::insertItem(Node *& treePtr, NodeData *newItem)]: the new link
    and the value returned.  The test [treePtr == NULL] reads the link, so
    the call has no defined behaviour on a link that was never assigned.
    The cell made at a [NULL] link gets its [data] and nothing else. *)
Fixpoint insertItem (h : Store) (treePtr : RawNode) (newItem : ptr)
  : option (RawNode * bool) :=
  match treePtr with
  | RNull => Some (RCell newItem Unassigned Unassigned, true)
  | RCell d l r =>
      x ← deref h newItem;
      y ← deref h d;
      if nd_eqb x y then Some (RCell d l r, false)
      else if nd_ltb x y then
        '(l', success) ← insertItem h l newItem;
        Some (RCell d l' r, success)
      else
        '(r', success) ← insertItem h r newItem;
        Some (RCell d l r', success)
  | Unassigned => None
  end.

(** [BinTree::insert(NodeData *newItem)]. *)
Definition insert (h : Store) (this : RawTree) (newItem : ptr)
  : option (RawTree * bool) :=
  '(r, success) ← insertItem h (raw_root this) newItem;
  Some (mkRawTree r, success).

(** [BinTree::retrieveItem(const Node *treePtr, const NodeData& searchItem,
    NodeData *& dataItem)]: the value returned and the final [dataItem]. *)
Fixpoint retrieveItem (h : Store) (treePtr : Node) (searchItem : NodeData)
    (dataItem : ptr) : option (bool * ptr) :=
  match treePtr with
  | Null => Some (false, dataItem)
  | Cell d l r =>
      y ← deref h d;
      if nd_eqb searchItem y then Some (true, d)
      else if nd_ltb searchItem y then retrieveItem h l searchItem dataItem
      else retrieveItem h r searchItem dataItem
  end.

(** [BinTree::retrieve]. *)
Definition retrieve (h : Store) (this : BinTree) (searchItem : NodeData)
    (dataItem : ptr) : option (bool * ptr) :=
  retrieveItem h (root this) searchItem dataItem.

(** [retrieveItem] and [retrieve] on a tree whose cells may have been made
    by [insertItem]: the same text, and no defined behaviour on a link that
    was never assigned. *)
Fixpoint retrieveItem_raw (h : Store) (treePtr : RawNode)
    (searchItem : NodeData) (dataItem : ptr) : option (bool * ptr) :=
  match treePtr with
  | RNull => Some (false, dataItem)
  | RCell d l r =>
      y ← deref h d;
      if nd_eqb searchItem y then Some (true, d)
      else if nd_ltb searchItem y
           then retrieveItem_raw h l searchItem dataItem
           else retrieveItem_raw h r searchItem dataItem
  | Unassigned => None
  end.

Definition retrieve_raw (h : Store) (this : RawTree) (searchItem : NodeData)
    (dataItem : ptr) : option (bool * ptr) :=
  retrieveItem_raw h (raw_root this) searchItem dataItem.

(** [BinTree::depth(const Node *treePtr, const NodeData& dataItem)]. *)
Fixpoint depth (h : Store) (treePtr : Node) (dataItem : NodeData)
  : option Z :=
  match treePtr with
  | Null => Some 0
  | Cell d l r =>
      y ← deref h d;
      if nd_eqb dataItem y then Some 1
      else
        level ← depth h l dataItem;
        level ← (if level =? 0 then depth h r dataItem else Some level);
        Some (if 0 <? level then level + 1 else level)
  end.

(** [BinTree::getDepth]. *)
Definition getDepth (h : Store) (this : BinTree) (searchItem : NodeData)
  : option Z :=
  depth h (root this) searchItem.

(** [BinTree::inorderHelper(ostream& output, const Node *treePtr)]: the
    stream is the text written so far. *)
Fixpoint inorderHelper (h : Store) (output : string) (treePtr : Node)
  : option string :=
  match treePtr with
  | Null => Some output
  | Cell d l r =>
      out1 ← inorderHelper h output l;
      v ← deref h d;
      inorderHelper h (out1 +:+ " " +:+ nd_show v) r
  end.

(** [operator<<(ostream& output, const BinTree& source)]. *)
Definition stream_out (h : Store) (output : string) (source : BinTree)
  : option string :=
  out ← inorderHelper h output (root source);
  Some (out +:+ String (Ascii.ascii_of_nat 10) EmptyString).

(** [BinTree::inorderToArray(Node *treePtr, NodeData *target[], int& index)]:
    the subtree with its data pointers nulled, the array and the index. *)
Fixpoint inorderToArray (treePtr : Node) (target : list ptr) (index : Z)
  : option (Node * list ptr * Z) :=
  match treePtr with
  | Null => Some (Null, target, index)
  | Cell d l r =>
      '(l', target1, index1) ← inorderToArray l target index;
      target2 ← store target1 index1 d;
      '(r', target3, index3) ← inorderToArray r target2 (index1 + 1);
      Some (Cell None l' r', target3, index3)
  end.

(** [BinTree::bstreeToArray(NodeData *target[])]. *)
Definition bstreeToArray (h : Store) (this : BinTree) (target : list ptr)
  : option (Store * BinTree * list ptr) :=
  let index := 10 in
  '(r1, target', _) ← inorderToArray (root this) target index;
  '(h', r2) ← destroyTree h r1;
  Some (h', mkBinTree r2, target').

(** The loop of [arrayToBSTree],
    [for (high = low; high < 100 && source[high] != NULL; ++high) {}],
    from the current [high]; [fuel] bounds the iterations left. *)
Fixpoint scan_high (fuel : nat) (source : list ptr) (high : Z) : option Z :=
  if high <? 100 then
    p ← load source high;
    match p with
    | None => Some high
    | Some _ =>
        match fuel with
        | O => None
        | S fuel' => scan_high fuel' source (high + 1)
        end
    end
  else Some high.

(** [BinTree::bisectBuild(NodeData *source[], int low, int high)]: the root
    and the array afterwards.  The division is C++'s, which truncates;
    [fuel] bounds the depth of the recursion. *)
Fixpoint bisectBuild (fuel : nat) (h : Store) (this : RawTree)
    (source : list ptr) (low high : Z) : option (RawTree * list ptr) :=
  match fuel with
  | O => None
  | S fuel' =>
      let mid := Z.quot (low + high) 2 in
      if low <=? mid then
        p ← load source mid;
        '(this1, success) ← insert h this p;
        if (success : bool) then
          source1 ← store source mid None;
          '(this2, source2) ← bisectBuild fuel' h this1 source1 low (mid - 1);
          bisectBuild fuel' h this2 source2 (mid + 1) high
        else Some (this1, source)
      else Some (this, source)
  end.

(** [BinTree::arrayToBSTree(NodeData *source[])], called on a tree all of
    whose links are assigned ([makeEmpty] walks every link of the tree).
    The loop runs at most 90 times and the bisection of at most 90 slots
    nests less than 100 deep. *)
Definition arrayToBSTree (h : Store) (this : BinTree) (source : list ptr)
  : option (Store * RawTree * list ptr) :=
  let low := 10 in
  '(h', this0) ← makeEmpty h this;
  high ← scan_high 90 source low;
  let high := high - 1 in
  first ← load source low;
  match first with
  | Some _ =>
      '(this1, source1) ←
        bisectBuild 100 h' (raw_tree this0) source low high;
      Some (h', this1, source1)
  | None => Some (h', raw_tree this0, source)
  end.

(** [BinTree::operator=(const BinTree& rhs)].  The test [this != &rhs] is on
    the two objects, so the [BinTree] objects of the program are kept by
    address; the result is the store and the objects afterwards. *)
Definition op_assign (h : Store) (objs : gmap addr BinTree) (this rhs : addr)
  : option (Store * gmap addr BinTree) :=
  lhs_tree ← objs !! this;
  rhs_tree ← objs !! rhs;
  if decide (this = rhs) then Some (h, objs)
  else
    '(h1, _) ← destroyTree h (root lhs_tree);
    '(h2, r) ← copyTree h1 (root rhs_tree);
    Some (h2, <[this := mkBinTree r]> objs).

(** The loop [for (int i = level; i >= 0; i--) cout << "    ";] of
    [sideways], from the current [i]; [fuel] bounds the iterations left. *)
Fixpoint indent_loop (fuel : nat) (output : string) (i : Z) : option string :=
  if 0 <=? i then
    match fuel with
    | O => None
    | S fuel' => indent_loop fuel' (output +:+ "    ") (i - 1)
    end
  else Some output.

(** [BinTree::sideways(Node *current, int level)]: [cout] is the text
    written so far.  The loop runs [level + 1] times. *)
Fixpoint sideways (h : Store) (output : string) (current : Node) (level : Z)
  : option string :=
  match current with
  | Null => Some output
  | Cell d l r =>
      let level := level + 1 in
      out1 ← sideways h output r level;
      out2 ← indent_loop (Z.to_nat (level + 1)) out1 level;
      v ← deref h d;
      sideways h (out2 +:+ nd_show v +:+ endl) l level
  end.

(** [BinTree::displaySideways]. *)
Definition displaySideways (h : Store) (output : string) (this : BinTree)
  : option string :=
  sideways h output (root this) 0.

(** ** Sequences of insertions *)

(** [insert] called once for each pointer, in order. *)
Fixpoint insert_all (h : Store) (this : RawTree) (items : list ptr)
  : option RawTree :=
  match items with
  | [] => Some this
  | p :: items' => '(this', _) ← insert h this p; insert_all h this' items'
  end.

(** ** Invariants and observations *)

(** The elements of a tree, in inorder. *)
Definition keys (h : Store) (t : Node) : list NodeData :=
  omap (deref h) (inorder t).

(** Every data pointer of [t] leads to an element that satisfies [P]. *)
Definition all_keys (P : NodeData → Prop) (h : Store) (t : Node) : Prop :=
  Forall (λ p, ∃ v, deref h p = Some v ∧ P v) (inorder t).

(** BST ordering: at every cell, the elements of the left subtree order
    strictly before the cell's element and those of the right subtree
    strictly after it. *)
Fixpoint bst (h : Store) (t : Node) : Prop :=
  match t with
  | Null => True
  | Cell d l r =>
      ∃ v, deref h d = Some v
           ∧ all_keys (λ x, nd_ltb x v = true) h l
           ∧ all_keys (λ x, nd_ltb v x = true) h r
           ∧ bst h l ∧ bst h r
  end.

(** The element behind [p] orders strictly before the element behind
    [q]. *)
Definition ptr_lt (h : Store) (p q : ptr) : Prop :=
  ∃ x y, deref h p = Some x ∧ deref h q = Some y ∧ nd_ltb x y = true.

(** An element equal to [x] is stored at 1-based nesting level [k]. *)
Inductive at_level (h : Store) (x : NodeData) : Node → Z → Prop :=
| at_level_here d l r v :
    deref h d = Some v → nd_eqb x v = true → at_level h x (Cell d l r) 1
| at_level_left d l r k :
    at_level h x l k → at_level h x (Cell d l r) (k + 1)
| at_level_right d l r k :
    at_level h x r k → at_level h x (Cell d l r) (k + 1).

(** Two trees, each in its store, have the same shape and elements of the
    same value at every position. *)
Fixpoint same_values (h : Store) (t : Node) (h' : Store) (t' : Node) : Prop :=
  match t, t' with
  | Null, Null => True
  | Cell d l r, Cell d' l' r' =>
      (∃ v, deref h d = Some v ∧ deref h' d' = Some v)
      ∧ same_values h l h' l' ∧ same_values h r h' r'
  | _, _ => False
  end.

(** The text [sideways] writes for a sequence of cells: for each one the
    indentation, one step more than its [level], the element and [endl]. *)
Definition side_text (cells : list (Z * NodeData)) : string :=
  foldr (λ c s, spaces (Z.to_nat (c.1 + 1)) +:+ nd_show c.2 +:+ endl +:+ s)
    EmptyString cells.

(** The text [inorderHelper] writes for a sequence of elements. *)
Definition render (vs : list NodeData) : string :=
  foldr (λ v s, " " +:+ nd_show v +:+ s) EmptyString vs.

End Operations.

(** ** A concrete element type, for examples *)

(** Integers, compared as integers and written in decimal. *)
#[export] Instance Z_NodeDataOps : NodeDataOps Z := {
  nd_eqb := Z.eqb;
  nd_ltb := Z.ltb;
  nd_show := pretty
}.

(** A store holding the given integers at the addresses 1, 2, 3, ... *)
Fixpoint store_from (a : addr) (vs : list Z) : gmap addr Z :=
  match vs with
  | [] => ∅
  | v :: vs' => <[a := v]> (store_from (Pos.succ a) vs')
  end.

Definition store_of (vs : list Z) : gmap addr Z := store_from 1%positive vs.

(** The pointers to the first [n] objects of such a store. *)
Definition ptrs_from (a : addr) (n : nat) : list ptr :=
  (λ i, Some (Pos.of_nat (Pos.to_nat a + i))) <$> seq 0 n.

(** Sample trees: [5] at the root, [3] and [8] below it, [1] and [4] below
    [3]; and two one-element trees whose elements are distinct objects of
    equal value. *)
Definition store5 : gmap addr Z := store_of [5; 3; 8; 1; 4].

Definition tree5 : BinTree :=
  mkBinTree
    (Cell (Some 1%positive)
       (Cell (Some 2%positive)
          (Cell (Some 4%positive) Null Null)
          (Cell (Some 5%positive) Null Null))
       (Cell (Some 3%positive) Null Null)).

Definition store_twins : gmap addr Z := store_of [5; 5].
Definition twin1 : BinTree := mkBinTree (Cell (Some 1%positive) Null Null).
Definition twin2 : BinTree := mkBinTree (Cell (Some 2%positive) Null Null).

(** A tree every cell of which hangs to the right of the one before, with
    the elements [1], [2], ..., [n] from the root down, and its store. *)
Definition store_asc (n : nat) : gmap addr Z :=
  store_of (Z.of_nat <$> seq 1 n).

Fixpoint chain (a : addr) (n : nat) : Node :=
  match n with
  | O => Null
  | S n' => Cell (Some a) Null (chain (Pos.succ a) n')
  end.

Definition tree_asc (n : nat) : BinTree := mkBinTree (chain 1%positive n).

(** An array of 100 slots that holds the two elements of [store_twins],
    of equal value, in the slots 10 and 11. *)
Definition source_twins : list ptr :=
  empty_array 10 ++ ptrs_from 1%positive 2 ++ empty_array 88.

(** A one-element tree on [store5], and an array of 100 slots that holds the
    other four elements from slot 10 on. *)
Definition tree5_one : BinTree := mkBinTree (Cell (Some 1%positive) Null Null).

Definition source5 : list ptr :=
  empty_array 10 ++ ptrs_from 2%positive 4 ++ empty_array 86.

(** A second one-element tree on [store5], and two tree objects at the
    addresses 1 and 2 that hold the two one-element trees. *)
Definition tree5_two : BinTree := mkBinTree (Cell (Some 2%positive) Null Null).

Definition objs5 : gmap addr BinTree :=
  <[1%positive := tree5_one]> (<[2%positive := tree5_two]> ∅).

(** * Properties *)

(** ** Equality of trees *)

Lemma ptr_eqb_eq (p q : ptr) : ptr_eqb p q = true ↔ p = q.
Proof.
  destruct p as [a|], q as [b|]; simpl; try (split; congruence).
  rewrite Pos.eqb_eq. split; congruence.
Qed.

(** [compare] decides whether two links lead to the same shape with the
    same data pointer at every position. *)
Lemma compare_eq (lhs rhs : Node) : compare lhs rhs = true ↔ lhs = rhs.
Proof.
  revert rhs. induction lhs as [|d l IHl r IHr]; intros [|d' l' r']; simpl;
    try (split; congruence).
  rewrite !andb_true_iff, ptr_eqb_eq, IHl, IHr.
  split; [intros [[-> ->] ->]; reflexivity | intros [= -> -> ->]; auto].
Qed.

Lemma compare_refl (t : Node) : compare t t = true.
Proof. apply compare_eq. reflexivity. Qed.

Lemma compare_sym (lhs rhs : Node) : compare lhs rhs = compare rhs lhs.
Proof.
  destruct (compare lhs rhs) eqn:E1, (compare rhs lhs) eqn:E2; try reflexivity.
  - apply compare_eq in E1. subst. rewrite compare_refl in E2. discriminate.
  - apply compare_eq in E2. subst. rewrite compare_refl in E1. discriminate.
Qed.

Lemma compare_size (lhs rhs : Node) :
  compare lhs rhs = true → size lhs = size rhs.
Proof. intros E. apply compare_eq in E. congruence. Qed.

(** On trees all of whose links are assigned, [compare_raw] is
    [compare]. *)
Lemma compare_raw_assigned (lhs rhs : Node) :
  compare_raw (raw lhs) (raw rhs) = Some (compare lhs rhs).
Proof.
  revert rhs. induction lhs as [|d l IHl r IHr]; intros [|d' l' r']; simpl;
    try done.
  destruct (ptr_eqb d d'); [|done]. rewrite IHl. simpl.
  destruct (compare l l'); [|done]. by rewrite IHr.
Qed.

(** C9: the equality operation is reflexive and symmetric, reports any two
    empty trees equal, and never reports two trees with different numbers
    of elements equal. *)
Theorem equality_laws :
  (∀ t : BinTree, op_eq t t = true)
  ∧ (∀ t1 t2 : BinTree, op_eq t1 t2 = op_eq t2 t1)
  ∧ (∀ t1 t2 : BinTree,
       isEmpty t1 = true → isEmpty t2 = true → op_eq t1 t2 = true)
  ∧ (∀ t1 t2 : BinTree,
       size (root t1) ≠ size (root t2) → op_eq t1 t2 = false).
Proof.
  unfold op_eq, isEmpty. repeat split.
  - intros t. apply compare_refl.
  - intros t1 t2. apply compare_sym.
  - intros [r1] [r2]. simpl. destruct r1, r2; simpl; congruence.
  - intros t1 t2 Hne. destruct (compare (root t1) (root t2)) eqn:E; [|done].
    apply compare_size in E. contradiction.
Qed.

Lemma equality_laws_witness :
  op_eq tree5 tree5 = true
  ∧ op_eq tree5 twin1 = op_eq twin1 tree5
  ∧ op_eq BinTree_new (mkBinTree Null) = true
  ∧ op_eq tree5 twin1 = false.
Proof.
  destruct equality_laws as (Hrefl & Hsym & Hempty & Hsize).
  split; [apply Hrefl|]. split; [apply Hsym|].
  split; [apply Hempty; reflexivity|].
  apply Hsize. simpl. lia.
Defined.

(** C1: on two one-element trees whose elements are distinct objects of the
    same value, so of identical shape and equal element at the one position,
    the equality operation returns false: [compare] compares the two data
    pointers, not the elements they point to.  This holds for the two trees
    as [insert] builds them, where [compare] returns before it reads a link
    of the root cells, and for the two trees with all links assigned. *)
Theorem equality_compares_pointers :
  insert_all store_twins (raw_tree BinTree_new) [Some 1%positive]
  = Some (mkRawTree (RCell (Some 1%positive) Unassigned Unassigned))
  ∧ insert_all store_twins (raw_tree BinTree_new) [Some 2%positive]
    = Some (mkRawTree (RCell (Some 2%positive) Unassigned Unassigned))
  ∧ op_eq_raw (mkRawTree (RCell (Some 1%positive) Unassigned Unassigned))
      (mkRawTree (RCell (Some 2%positive) Unassigned Unassigned))
    = Some false
  ∧ keys store_twins (root twin1) = [5]
  ∧ keys store_twins (root twin2) = [5]
  ∧ op_eq twin1 twin2 = false.
Proof. vm_compute. repeat split; reflexivity. Qed.

(** C2: copy-constructing the five-element sample tree gives a tree of the
    same shape whose elements are fresh objects of the same values, and the
    equality operation reports the copy different from the original. *)
Theorem copy_not_equal :
  ∃ h' copy,
    BinTree_copy store5 tree5 = Some (h', copy)
    ∧ keys h' (root copy) = keys store5 (root tree5)
    ∧ (∀ p, p ∈ inorder (root copy) → p ∉ inorder (root tree5))
    ∧ op_eq copy tree5 = false.
Proof.
  eexists _, _. split; [vm_compute; reflexivity|].
  split; [vm_compute; reflexivity|].
  split; [|vm_compute; reflexivity].
  intros p Hp Hq. simpl in Hp, Hq.
  repeat (apply elem_of_cons in Hp as [->|Hp]);
    try (repeat (apply elem_of_cons in Hq as [?|Hq]); try discriminate;
         by apply elem_of_nil in Hq).
  by apply elem_of_nil in Hp.
Qed.

(** ** Elements, ordering and the BST invariant *)

Section Invariants.
Context {NodeData : Type} `{NodeDataOrder NodeData}.
Implicit Types (h : gmap addr NodeData) (t l r : Node) (p d : ptr)
  (x y v : NodeData).

Lemma nd_eqb_refl x : nd_eqb x x = true.
Proof. by apply nd_eqb_eq. Qed.

Lemma nd_eqb_neq x y : nd_eqb x y = false ↔ x ≠ y.
Proof.
  destruct (nd_eqb x y) eqn:E.
  - apply nd_eqb_eq in E. split; [discriminate | contradiction].
  - split; [|done]. intros _ ->. by rewrite nd_eqb_refl in E.
Qed.

Lemma nd_ltb_neq x y : nd_ltb x y = true → nd_eqb x y = false.
Proof.
  intros Hlt. apply nd_eqb_neq. intros ->.
  by rewrite nd_ltb_irrefl in Hlt.
Qed.

Lemma nd_ltb_asym x y : nd_ltb x y = true → nd_ltb y x = false.
Proof.
  intros Hxy. destruct (nd_ltb y x) eqn:Hyx; [|done].
  pose proof (nd_ltb_trans _ _ _ Hxy Hyx) as Hxx.
  by rewrite nd_ltb_irrefl in Hxx.
Qed.

Lemma nd_ltb_ge x y :
  nd_eqb x y = false → nd_ltb x y = false → nd_ltb y x = true.
Proof.
  intros Hne Hnlt. apply nd_eqb_neq in Hne.
  destruct (nd_ltb_total x y) as [Hlt|[->|Hgt]]; [congruence|done|done].
Qed.

Lemma all_keys_Null (P : NodeData → Prop) h : all_keys P h Null.
Proof. constructor. Qed.

Lemma all_keys_Cell (P : NodeData → Prop) h d l r :
  all_keys P h (Cell d l r) ↔
    all_keys P h l ∧ (∃ v, deref h d = Some v ∧ P v) ∧ all_keys P h r.
Proof. unfold all_keys. simpl. by rewrite Forall_app, Forall_cons. Qed.

Lemma keys_Cell h d l r v :
  deref h d = Some v → keys h (Cell d l r) = keys h l ++ v :: keys h r.
Proof.
  intros Hd. unfold keys. simpl. rewrite omap_app. simpl. by rewrite Hd.
Qed.

Lemma all_keys_elem (P : NodeData → Prop) h t x :
  all_keys P h t → x ∈ keys h t → P x.
Proof.
  unfold all_keys, keys. intros Hall Hx.
  apply list_elem_of_omap in Hx as (p & Hp & Hpx).
  rewrite Forall_forall in Hall. destruct (Hall p Hp) as (v & Hv & HP).
  congruence.
Qed.

Lemma bst_all_live h t : bst h t → all_keys (λ _, True) h t.
Proof.
  induction t as [|d l IHl r IHr]; simpl; [intros; apply all_keys_Null|].
  intros (v & Hd & _ & _ & Hl & Hr). apply all_keys_Cell.
  split; [auto | split; [eauto | auto]].
Qed.

Lemma keys_length h t : all_keys (λ _, True) h t → length (keys h t) = size t.
Proof.
  induction t as [|d l IHl r IHr]; [done|].
  rewrite all_keys_Cell. intros (Hl & (v & Hd & _) & Hr).
  rewrite (keys_Cell _ _ _ _ _ Hd), length_app. simpl.
  rewrite IHl, IHr by done. lia.
Qed.

Lemma inorder_length t : length (inorder t) = size t.
Proof.
  induction t as [|d l IHl r IHr]; [done|]. simpl.
  rewrite length_app. simpl. lia.
Qed.

(** The elements of a tree that satisfies the BST invariant are strictly
    ascending in inorder. *)
Lemma bst_keys_sorted h t :
  bst h t → StronglySorted (λ x y, nd_ltb x y = true) (keys h t).
Proof.
  induction t as [|d l IHl r IHr]; simpl; [intros; constructor|].
  intros (v & Hd & Hlt & Hgt & Hl & Hr).
  rewrite (keys_Cell _ _ _ _ _ Hd). apply StronglySorted_app.
  split; [|split; [auto|]].
  - intros x1 x2 Hx1 Hx2. pose proof (all_keys_elem _ _ _ _ Hlt Hx1) as H1.
    apply elem_of_cons in Hx2 as [->|Hx2]; [done|].
    pose proof (all_keys_elem _ _ _ _ Hgt Hx2) as H2. simpl in *.
    eapply nd_ltb_trans; eauto.
  - apply StronglySorted_cons. split; [|auto].
    apply Forall_forall. intros y Hy. exact (all_keys_elem _ _ _ _ Hgt Hy).
Qed.

Lemma string_app_assoc (s1 s2 s3 : string) :
  (s1 +:+ s2) +:+ s3 = s1 +:+ s2 +:+ s3.
Proof.
  induction s1 as [|c s1 IH]; [done|].
  change (String c ((s1 +:+ s2) +:+ s3) = String c (s1 +:+ s2 +:+ s3)).
  by rewrite IH.
Qed.

Lemma string_app_empty_r (s : string) : s +:+ EmptyString = s.
Proof.
  induction s as [|c s IH]; [done|].
  change (String c (s +:+ EmptyString) = String c s). by rewrite IH.
Qed.

Lemma render_cons v (vs : list NodeData) :
  render (v :: vs) = " " +:+ nd_show v +:+ render vs.
Proof. reflexivity. Qed.

Lemma render_app (vs ws : list NodeData) :
  render (vs ++ ws) = render vs +:+ render ws.
Proof.
  induction vs as [|v vs IH]; [done|].
  rewrite <- app_comm_cons, !render_cons, IH.
  by rewrite !string_app_assoc.
Qed.

(** [inorderHelper] appends the elements of the tree, in inorder, each one
    after a space. *)
Lemma inorderHelper_render h t (output : string) :
  all_keys (λ _, True) h t →
  inorderHelper h output t = Some (output +:+ render (keys h t)).
Proof.
  revert output. induction t as [|d l IHl r IHr]; intros output; simpl.
  - intros _. by rewrite string_app_empty_r.
  - rewrite all_keys_Cell. intros (Hl & (v & Hd & _) & Hr).
    rewrite (IHl _ Hl). simpl. rewrite Hd. simpl. rewrite (IHr _ Hr).
    rewrite (keys_Cell _ _ _ _ _ Hd), render_app, render_cons.
    by rewrite !string_app_assoc.
Qed.

(** ** Copying *)

Lemma deref_weaken h h' p v : h ⊆ h' → deref h p = Some v → deref h' p = Some v.
Proof.
  intros Hsub. destruct p as [a|]; simpl; [|done].
  intros Ha. by eapply lookup_weaken.
Qed.

Lemma deref_weaken_None h h' p : h ⊆ h' → deref h' p = None → deref h p = None.
Proof.
  intros Hsub Hp. destruct (deref h p) as [v|] eqn:E; [|done].
  rewrite (deref_weaken _ _ _ _ Hsub E) in Hp. done.
Qed.

Lemma all_keys_weaken (P : NodeData → Prop) h h' t :
  h ⊆ h' → all_keys P h t → all_keys P h' t.
Proof.
  intros Hsub Hall. unfold all_keys. eapply Forall_impl; [exact Hall|].
  intros p (v & Hv & HP). exists v. eauto using deref_weaken.
Qed.

Lemma keys_weaken h h' t :
  h ⊆ h' → all_keys (λ _, True) h t → keys h' t = keys h t.
Proof.
  intros Hsub. unfold all_keys, keys.
  induction 1 as [|p ps (v & Hv & _) _ IH]; [done|].
  change (p :: ps) with ([p] ++ ps). rewrite !omap_app, IH. f_equal.
  simpl. by rewrite Hv, (deref_weaken _ _ _ _ Hsub Hv).
Qed.

(** [copyTree] on a tree of live elements: the copy has the shape of the
    source and elements of the same values, each one a new object, no two
    of them the same; the objects that existed before are untouched. *)
Lemma copyTree_spec t :
  ∀ h, all_keys (λ _, True) h t →
  ∃ h' t', copyTree h t = Some (h', t')
    ∧ h ⊆ h'
    ∧ strip t' = strip t
    ∧ keys h' t' = keys h t
    ∧ NoDup (inorder t')
    ∧ Forall (λ p, is_Some (deref h' p) ∧ deref h p = None) (inorder t').
Proof.
  induction t as [|d l IHl r IHr]; intros h.
  - intros _. exists h, Null. simpl. repeat split; [done | constructor..].
  - rewrite all_keys_Cell. intros (Hl & (v & Hd & _) & Hr).
    simpl. rewrite Hd. simpl.
    set (a := fresh (dom h)).
    assert (Ha : h !! a = None) by apply not_elem_of_dom, is_fresh.
    assert (S0 : h ⊆ <[a:=v]> h) by by apply insert_subseteq.
    destruct (IHl (<[a:=v]> h)) as (h1 & l' & -> & S1 & St1 & K1 & N1 & F1);
      [by eapply all_keys_weaken|].
    simpl.
    destruct (IHr h1) as (h2 & r' & -> & S2 & St2 & K2 & N2 & F2);
      [eapply all_keys_weaken; [|exact Hr]; by etrans|].
    simpl. exists h2, (Cell (Some a) l' r').
    assert (Ha1 : h1 !! a = Some v).
    { eapply lookup_weaken; [|exact S1]. apply lookup_insert_eq. }
    assert (Ha2 : h2 !! a = Some v) by by eapply lookup_weaken.
    assert (Hlive1 : all_keys (λ _, True) h1 l').
    { unfold all_keys. eapply Forall_impl; [exact F1|].
      intros p [[w Hw] _]. by exists w. }
    rewrite Forall_forall in F1, F2.
    split; [done|].
    assert (S01 : h ⊆ h1) by (by etrans).
    split; [by etrans|]. split; [simpl; congruence|].
    split; [|split].
    + rewrite (keys_Cell h2 (Some a) l' r' v Ha2), (keys_Cell _ _ _ _ _ Hd).
      rewrite (keys_weaken h1 h2 l' S2 Hlive1), K1, (keys_weaken _ _ _ S0 Hl).
      rewrite K2, (keys_weaken h h1 r); [done | done | done].
    + simpl. apply NoDup_app. split; [done|]. split.
      * intros p Hp Hp'. destruct (F1 p Hp) as [[w Hw] Hfresh].
        apply elem_of_cons in Hp' as [->|Hp'].
        -- simpl in Hfresh. by rewrite lookup_insert_eq in Hfresh.
        -- destruct (F2 p Hp') as [_ Hfresh']. congruence.
      * apply NoDup_cons. split; [|done].
        intros Hin. destruct (F2 _ Hin) as [_ Hfresh]. simpl in Hfresh.
        congruence.
    + simpl. apply Forall_app. split; [|apply Forall_cons; split].
      * apply Forall_forall. intros p Hp.
        destruct (F1 p Hp) as [[w Hw] Hfresh]. split.
        -- exists w. by eapply deref_weaken.
        -- exact (deref_weaken_None _ _ _ S0 Hfresh).
      * split; [by exists v | done].
      * apply Forall_forall. intros p Hp.
        destruct (F2 p Hp) as [Hlive Hfresh]. split; [done|].
        exact (deref_weaken_None _ _ _ S01 Hfresh).
Qed.

(** The copy constructor on any non-empty tree of live elements: the copy
    has the shape and the element values of the original and none of its
    objects, and the equality operation reports the two different. *)
Lemma copy_never_equal h (orig : BinTree) :
  all_keys (λ _, True) h (root orig) → root orig ≠ Null →
  ∃ h' copy, BinTree_copy h orig = Some (h', copy)
    ∧ strip (root copy) = strip (root orig)
    ∧ keys h' (root copy) = keys h (root orig)
    ∧ (∀ p, p ∈ inorder (root copy) → p ∉ inorder (root orig))
    ∧ op_eq copy orig = false.
Proof.
  intros Hlive Hne. unfold BinTree_copy, op_eq.
  destruct (copyTree_spec (root orig) h Hlive)
    as (h' & t' & -> & _ & Hstrip & Hkeys & _ & Hfresh).
  simpl. exists h', (mkBinTree t'). simpl. rewrite Forall_forall in Hfresh.
  assert (Hdisj : ∀ p, p ∈ inorder t' → p ∉ inorder (root orig)).
  { intros p Hp Hp'. destruct (Hfresh p Hp) as [_ Hnone].
    unfold all_keys in Hlive. rewrite Forall_forall in Hlive.
    destruct (Hlive p Hp') as (w & Hw & _). congruence. }
  split; [done|]. split; [done|]. split; [done|]. split; [done|].
  destruct (root orig) as [|d l r]; [done|].
  destruct t' as [|d' l' r']; [done|]. simpl.
  assert (ptr_eqb d' d = false) as ->; [|done].
  destruct (ptr_eqb d' d) eqn:E; [|done]. apply ptr_eqb_eq in E as ->.
  destruct (Hdisj d); simpl; rewrite elem_of_app, elem_of_cons; auto.
Qed.

(** ** Retrieval *)

Lemma bst_left_not_right h d l r v x :
  deref h d = Some v → bst h (Cell d l r) → nd_ltb x v = true →
  x ∉ keys h r.
Proof.
  simpl. intros Hd (v' & Hd' & _ & Hgt & _) Hlt Hin.
  assert (v' = v) as -> by congruence.
  pose proof (all_keys_elem _ _ _ _ Hgt Hin) as Hvx. simpl in Hvx.
  apply nd_ltb_asym in Hvx. congruence.
Qed.

Lemma bst_right_not_left h d l r v x :
  deref h d = Some v → bst h (Cell d l r) → nd_ltb v x = true →
  x ∉ keys h l.
Proof.
  simpl. intros Hd (v' & Hd' & Hlt & _) Hgt Hin.
  assert (v' = v) as -> by congruence.
  pose proof (all_keys_elem _ _ _ _ Hlt Hin) as Hxv. simpl in Hxv.
  apply nd_ltb_asym in Hxv. congruence.
Qed.

(** [retrieveItem] on a tree that satisfies the BST invariant: it succeeds
    exactly on the elements of the tree, hands out the data pointer of the
    cell that holds the element, and leaves [dataItem] alone on failure. *)
Lemma retrieveItem_spec h t x (dataItem : ptr) :
  bst h t →
  ∃ b q, retrieveItem h t x dataItem = Some (b, q)
    ∧ (b = true ↔ x ∈ keys h t)
    ∧ (b = true → q ∈ inorder t ∧ deref h q = Some x)
    ∧ (b = false → q = dataItem).
Proof.
  induction t as [|d l IHl r IHr]; simpl.
  - intros _. exists false, dataItem. split; [done|].
    split; [|split; [discriminate|done]].
    split; [discriminate|]. intros Hin. by apply elem_of_nil in Hin.
  - intros Hbst. pose proof Hbst as (v & Hd & Hlt & Hgt & Hl & Hr).
    rewrite Hd. simpl. rewrite (keys_Cell _ _ _ _ _ Hd).
    destruct (nd_eqb x v) eqn:Eeq; [|destruct (nd_ltb x v) eqn:Elt].
    + apply nd_eqb_eq in Eeq as ->. exists true, d. split; [done|].
      split; [|split; [|discriminate]].
      * rewrite elem_of_app, elem_of_cons. split; auto.
      * intros _. split; [|done]. rewrite elem_of_app, elem_of_cons. auto.
    + destruct (IHl Hl) as (b & q & -> & Hiff & Ht & Hf).
      exists b, q. split; [done|]. split; [|split; [|done]].
      * rewrite Hiff, elem_of_app, elem_of_cons.
        split; [auto|]. intros [?|[->|Hin]]; [done| |].
        -- by rewrite nd_eqb_refl in Eeq.
        -- by destruct (bst_left_not_right _ _ _ _ _ _ Hd Hbst Elt).
      * intros Hb. destruct (Ht Hb). split; [|done].
        rewrite elem_of_app. auto.
    + pose proof (nd_ltb_ge _ _ Eeq Elt) as Egt.
      destruct (IHr Hr) as (b & q & -> & Hiff & Ht & Hf).
      exists b, q. split; [done|]. split; [|split; [|done]].
      * rewrite Hiff, elem_of_app, elem_of_cons.
        split; [auto|]. intros [Hin|[->|?]]; [| |done].
        -- by destruct (bst_right_not_left _ _ _ _ _ _ Hd Hbst Egt).
        -- by rewrite nd_eqb_refl in Eeq.
      * intros Hb. destruct (Ht Hb). split; [|done].
        rewrite elem_of_app, elem_of_cons. auto.
Qed.

Lemma destroyTree_Null h t h' t' : destroyTree h t = Some (h', t') → t' = Null.
Proof.
  destruct t as [|d l r]; simpl; [congruence|].
  destruct (destroyTree h l) as [[h1 ?]|]; simpl; [|done].
  destruct (destroyTree h1 r) as [[h2 ?]|]; simpl; [|done].
  destruct (match d with Some a => delete_data h2 a | None => Some h2 end);
    simpl; congruence.
Qed.

(** ** Insertion *)

Lemma raw_inorder_raw t : raw_inorder (raw t) = inorder t.
Proof.
  induction t as [|d l IHl r IHr]; simpl; [done|]. by rewrite IHl, IHr.
Qed.

(** On a tree all of whose links are assigned, [retrieveItem_raw] is
    [retrieveItem]. *)
Lemma retrieveItem_raw_assigned h t x (dataItem : ptr) :
  retrieveItem_raw h (raw t) x dataItem = retrieveItem h t x dataItem.
Proof.
  induction t as [|d l IHl r IHr]; simpl; [done|].
  destruct (deref h d) as [y|]; simpl; [|done].
  destruct (nd_eqb x y); [done|]. by destruct (nd_ltb x y).
Qed.

(** What [insertItem] does to the data pointers of any tree: a call that
    returns true has added the new pointer, a call that returns false has
    changed nothing. *)
Lemma insertItem_moves h (T : RawNode) p :
  ∀ (T' : RawNode) (b : bool), insertItem h T p = Some (T', b) →
  if b then raw_inorder T' ≡ₚ p :: raw_inorder T else T' = T.
Proof.
  induction T as [|d l IHl r IHr|]; intros T' b; simpl.
  - by intros [= <- <-].
  - destruct (deref h p) as [x|]; simpl; [|done].
    destruct (deref h d) as [y|]; simpl; [|done].
    destruct (nd_eqb x y); [by intros [= <- <-]|].
    destruct (nd_ltb x y).
    + destruct (insertItem h l p) as [[l' b']|] eqn:E; simpl; [|done].
      intros [= <- <-]. specialize (IHl _ _ eq_refl).
      destruct b'; [|by subst]. simpl. by rewrite IHl.
    + destruct (insertItem h r p) as [[r' b']|] eqn:E; simpl; [|done].
      intros [= <- <-]. specialize (IHr _ _ eq_refl).
      destruct b'; [|by subst]. simpl. rewrite IHr.
      rewrite (Permutation_middle (raw_inorder l) (d :: raw_inorder r) p).
      apply Permutation_app_head, perm_swap.
  - done.
Qed.


(** On a tree that satisfies the BST invariant, [insertItem] of an element
    whose value is present finds the cell that holds it before it reaches
    the end of a branch. *)
Lemma insertItem_present h t p x :
  bst h t → deref h p = Some x → x ∈ keys h t →
  insertItem h (raw t) p = Some (raw t, false).
Proof.
  intros Hbst Hp. revert Hbst.
  induction t as [|d l IHl r IHr]; intros Hbst; simpl.
  - intros Hin. by apply elem_of_nil in Hin.
  - pose proof Hbst as (v & Hd & Hlt & Hgt & Hl & Hr).
    rewrite Hp, Hd. simpl.
    rewrite (keys_Cell _ _ _ _ _ Hd), elem_of_app, elem_of_cons.
    destruct (nd_eqb x v) eqn:Eeq; [done|].
    destruct (nd_ltb x v) eqn:Elt.
    + intros [Hin|[->|Hin]].
      * by rewrite (IHl Hl Hin).
      * by rewrite nd_eqb_refl in Eeq.
      * by destruct (bst_left_not_right _ _ _ _ _ _ Hd Hbst Elt).
    + pose proof (nd_ltb_ge _ _ Eeq Elt) as Egt. intros [Hin|[->|Hin]].
      * by destruct (bst_right_not_left _ _ _ _ _ _ Hd Hbst Egt).
      * by rewrite nd_eqb_refl in Eeq.
      * by rewrite (IHr Hr Hin).
Qed.

(** C5: inserting an element that is already present returns failure and
    leaves the tree, shape and content, exactly as it was. *)
Theorem insert_duplicate_rejected h (this : BinTree) p x :
  bst h (root this) → deref h p = Some x → x ∈ keys h (root this) →
  insert h (raw_tree this) p = Some (raw_tree this, false).
Proof.
  intros Hbst Hp Hin. unfold insert, raw_tree. simpl.
  rewrite (insertItem_present h (root this) p x Hbst Hp Hin). done.
Qed.

(** A cell made by [insertItem] has no assigned link: [insertItem] of an
    element of another value goes down one of them. *)
Lemma insertItem_beside_new h d q x y :
  deref h q = Some x → deref h d = Some y → x ≠ y →
  insertItem h (RCell d Unassigned Unassigned) q = None.
Proof.
  intros Hq Hd Hne. simpl. rewrite Hq, Hd. simpl.
  apply nd_eqb_neq in Hne. rewrite Hne. by destruct (nd_ltb x y).
Qed.

(** C4: the claim fails at the second insertion.  The first [insert] into
    the empty tree makes the root cell and assigns its [data] only; the
    [insert] of an element of another value then goes down [root->left] or
    [root->right], which was never assigned, and has no defined behaviour.
    No sequence of insertions that begins with two elements of different
    values yields a tree. *)
Theorem second_insertion_undefined h p q x y (items : list ptr) :
  deref h p = Some x → deref h q = Some y → x ≠ y →
  ∃ this1,
    insert h (raw_tree BinTree_new) p = Some (this1, true)
    ∧ raw_root this1 = RCell p Unassigned Unassigned
    ∧ insert h this1 q = None
    ∧ insert_all h (raw_tree BinTree_new) (p :: q :: items) = None.
Proof.
  intros Hp Hq Hne. exists (mkRawTree (RCell p Unassigned Unassigned)).
  assert (Hsecond : insert h (mkRawTree (RCell p Unassigned Unassigned)) q
                    = None).
  { unfold insert. cbn [raw_root].
    rewrite (insertItem_beside_new h p q y x); [done|done|done|].
    by intros ->. }
  split; [done|]. split; [done|]. split; [exact Hsecond|].
  cbn [insert_all]. change (insert h (raw_tree BinTree_new) p)
    with (Some (mkRawTree (RCell p Unassigned Unassigned), true)).
  cbn [mbind option_bind]. by rewrite Hsecond.
Qed.

(** C7: the claim fails on a tree that [insert] has built.  After one
    [insert] into the empty tree, [retrieve] of the inserted value finds it
    at the root; [retrieve] of any other value, for which the answer should
    be "not found", goes down [root->left] or [root->right], which was
    never assigned, and has no defined behaviour. *)
Theorem retrieve_reads_unassigned_link h p x y (dataItem : ptr) :
  deref h p = Some x → y ≠ x →
  ∃ this1,
    insert h (raw_tree BinTree_new) p = Some (this1, true)
    ∧ retrieve_raw h this1 x dataItem = Some (true, p)
    ∧ retrieve_raw h this1 y dataItem = None.
Proof.
  intros Hp Hne. exists (mkRawTree (RCell p Unassigned Unassigned)).
  split; [done|]. unfold retrieve_raw. simpl. rewrite Hp. simpl.
  rewrite nd_eqb_refl. split; [done|].
  apply nd_eqb_neq in Hne. rewrite Hne. by destruct (nd_ltb y x).
Qed.

(** ** Depth *)

Lemma at_level_pos h x t k : at_level h x t k → 1 ≤ k.
Proof. induction 1; lia. Qed.

Lemma at_level_elem h x t k : at_level h x t k → x ∈ keys h t.
Proof.
  induction 1 as [d l r v Hd Heq | d l r k Hl IH | d l r k Hr IH];
    unfold keys in *; simpl; rewrite omap_app, elem_of_app; simpl.
  - apply nd_eqb_eq in Heq as ->. rewrite Hd. right. apply elem_of_cons. auto.
  - auto.
  - right. destruct (deref h d); [apply elem_of_cons|]; auto.
Qed.

(** Every element of a tree is stored at some level. *)
Lemma elem_at_level h x t :
  all_keys (λ _, True) h t → x ∈ keys h t → ∃ k, at_level h x t k.
Proof.
  induction t as [|d l IHl r IHr].
  - intros _ Hin. by apply elem_of_nil in Hin.
  - rewrite all_keys_Cell. intros (Hl & (v & Hd & _) & Hr).
    rewrite (keys_Cell _ _ _ _ _ Hd), elem_of_app, elem_of_cons.
    intros [Hin|[->|Hin]].
    + destruct (IHl Hl Hin) as [k Hk]. eauto using at_level_left.
    + exists 1. eapply at_level_here; [done | apply nd_eqb_refl].
    + destruct (IHr Hr Hin) as [k Hk]. eauto using at_level_right.
Qed.

Lemma depth_absent h t x :
  all_keys (λ _, True) h t → x ∉ keys h t → depth h t x = Some 0.
Proof.
  induction t as [|d l IHl r IHr]; simpl; [done|].
  rewrite all_keys_Cell. intros (Hl & (v & Hd & _) & Hr).
  rewrite (keys_Cell _ _ _ _ _ Hd), elem_of_app, elem_of_cons. intros Hnin.
  rewrite Hd. simpl. destruct (nd_eqb x v) eqn:Eeq.
  - apply nd_eqb_eq in Eeq. tauto.
  - rewrite IHl by tauto. simpl. rewrite IHr by tauto. done.
Qed.

Lemma depth_at_level h t x k :
  bst h t → at_level h x t k → depth h t x = Some k.
Proof.
  intros Hbst Hat. revert Hbst.
  induction Hat as [d l r v Hd Heq | d l r k Hl IH | d l r k Hr IH];
    intros Hbst; pose proof Hbst as (w & Hw & Hlt & Hgt & Hbl & Hbr); simpl.
  - rewrite Hd. simpl. by rewrite Heq.
  - rewrite Hw. simpl.
    pose proof (all_keys_elem _ _ _ _ Hlt (at_level_elem _ _ _ _ Hl)) as Hxw.
    simpl in Hxw. rewrite (nd_ltb_neq _ _ Hxw), (IH Hbl). simpl.
    pose proof (at_level_pos _ _ _ _ Hl).
    destruct (k =? 0) eqn:E0; [lia|]. simpl.
    destruct (0 <? k) eqn:E1; [done|lia].
  - rewrite Hw. simpl.
    pose proof (all_keys_elem _ _ _ _ Hgt (at_level_elem _ _ _ _ Hr)) as Hwx.
    simpl in Hwx.
    assert (nd_eqb x w = false) as ->.
    { apply nd_eqb_neq. intros ->. by rewrite nd_ltb_irrefl in Hwx. }
    rewrite (depth_absent h l x).
    + simpl. rewrite (IH Hbr). simpl.
      pose proof (at_level_pos _ _ _ _ Hr).
      destruct (0 <? k) eqn:E1; [done|lia].
    + by apply bst_all_live.
    + exact (bst_right_not_left _ _ _ _ _ _ Hw Hbst Hwx).
Qed.

(** C8: on a tree that satisfies the BST invariant, [getDepth] returns 1 for
    the element of the root, 0 for an element that is not in the tree, and
    [k] for an element stored at 1-based nesting level [k]. *)
Theorem getDepth_levels h (this : BinTree) :
  bst h (root this) →
  (∀ d l r v, root this = Cell d l r → deref h d = Some v →
     getDepth h this v = Some 1)
  ∧ (∀ x, x ∉ keys h (root this) → getDepth h this x = Some 0)
  ∧ (∀ x k, at_level h x (root this) k → getDepth h this x = Some k).
Proof.
  intros Hbst. unfold getDepth. split; [|split].
  - intros d l r v Hroot Hd. apply depth_at_level; [done|].
    rewrite Hroot. eapply at_level_here; [done | apply nd_eqb_refl].
  - intros x Hnin. apply depth_absent; [by apply bst_all_live | done].
  - intros x k Hat. by apply depth_at_level.
Qed.

(** ** Export to an array *)

(** Decide the integer tests of the goal, dropping the impossible cases. *)
Ltac ztest :=
  repeat match goal with
  | |- context [?a <? ?b] => destruct (Z.ltb_spec a b); try lia
  | |- context [?a <=? ?b] => destruct (Z.leb_spec a b); try lia
  | |- context [?a =? ?b] => destruct (Z.eqb_spec a b); try lia
  end.

Lemma load_app_mid (pre post : list ptr) p :
  load (pre ++ p :: post) (Z.of_nat (length pre)) = Some p.
Proof.
  unfold load. ztest.
  rewrite Nat2Z.id. by rewrite list_lookup_middle.
Qed.

Lemma store_app_mid (pre post : list ptr) p q :
  store (pre ++ p :: post) (Z.of_nat (length pre)) q
  = Some (pre ++ q :: post).
Proof.
  unfold store. rewrite length_app. simpl. ztest.
  simpl. rewrite Nat2Z.id. f_equal.
  rewrite insert_app_r_alt by lia. by rewrite Nat.sub_diag.
Qed.

Lemma store_out_of_range (a : list ptr) (i : Z) p :
  Z.of_nat (length a) ≤ i → store a i p = None.
Proof.
  intros Hi. unfold store. ztest. by rewrite andb_false_r.
Qed.

(** [inorderToArray] writes the data pointers of the tree, in inorder, over
    the slots that follow [index], and nulls the data pointers of the
    cells. *)
Lemma inorderToArray_spec t (pre mid post : list ptr) :
  length mid = size t →
  inorderToArray t (pre ++ mid ++ post) (Z.of_nat (length pre))
  = Some (strip t, pre ++ inorder t ++ post,
          Z.of_nat (length pre + size t)).
Proof.
  revert pre mid post. induction t as [|d l IHl r IHr]; intros pre mid post.
  - destruct mid; [|done]. intros _. simpl. by rewrite Nat.add_0_r.
  - simpl. intros Hlen.
    assert (∃ m1 q m2, mid = m1 ++ q :: m2 ∧ length m1 = size l
                       ∧ length m2 = size r) as (m1 & q & m2 & -> & H1 & H2).
    { destruct (lookup_lt_is_Some_2 mid (size l)) as [q Hq]; [lia|].
      exists (take (size l) mid), q, (drop (S (size l)) mid).
      split; [|split].
      - by rewrite take_drop_middle.
      - rewrite length_take. lia.
      - rewrite length_drop. lia. }
    replace ((m1 ++ q :: m2) ++ post) with (m1 ++ q :: m2 ++ post)
      by by rewrite <- app_assoc.
    rewrite (IHl pre m1 (q :: m2 ++ post) H1). simpl.
    replace (pre ++ inorder l ++ q :: m2 ++ post)
      with ((pre ++ inorder l) ++ q :: m2 ++ post) by by rewrite <- app_assoc.
    replace (Z.of_nat (length pre + size l))
      with (Z.of_nat (length (pre ++ inorder l)))
      by (rewrite length_app, inorder_length; lia).
    rewrite store_app_mid. simpl.
    replace (Z.of_nat (length (pre ++ inorder l)) + 1)
      with (Z.of_nat (length ((pre ++ inorder l) ++ [d])))
      by (rewrite !length_app; simpl; lia).
    replace ((pre ++ inorder l) ++ d :: m2 ++ post)
      with (((pre ++ inorder l) ++ [d]) ++ m2 ++ post)
      by by rewrite <- (app_assoc _ [d]).
    rewrite (IHr _ m2 post H2). simpl. f_equal. f_equal; [f_equal|].
    + rewrite <- !app_assoc. done.
    + rewrite !length_app, inorder_length. simpl. lia.
Qed.

(** Writing past the end: when the slots from [index] on are fewer than the
    cells of the tree, [inorderToArray] leaves the array. *)
Lemma inorderToArray_overflow t (target : list ptr) (i : nat) :
  (i ≤ length target < i + size t)%nat →
  inorderToArray t target (Z.of_nat i) = None.
Proof.
  revert target i. induction t as [|d l IHl r IHr]; intros target i; simpl.
  - lia.
  - intros Hi. destruct (decide (length target < i + size l)%nat) as [Hl|Hl].
    + rewrite IHl by lia. done.
    + assert (target = take i target ++ take (size l) (drop i target)
                ++ drop (i + size l) target) as Hsplit.
      { rewrite <- drop_drop, take_drop, take_drop. done. }
      assert (length (take i target) = i) as Hpre
        by (rewrite length_take; lia).
      pose proof (inorderToArray_spec l (take i target)
                    (take (size l) (drop i target))
                    (drop (i + size l) target)) as Hl'.
      rewrite <- Hsplit, Hpre in Hl'.
      rewrite Hl' by (rewrite length_take, length_drop; lia).
      simpl.
      set (target1 := take i target ++ inorder l ++ drop (i + size l) target).
      assert (length target1 = length target) as Hlen1.
      { unfold target1. rewrite !length_app, length_take, length_drop,
          inorder_length. lia. }
      destruct (decide (length target1 ≤ i + size l)%nat) as [Hfull|Hroom].
      * rewrite store_out_of_range by lia. done.
      * unfold store. ztest. simpl.
        replace (Z.of_nat (i + size l) + 1) with (Z.of_nat (S (i + size l)))
          by lia.
        rewrite IHr; [done|]. rewrite length_insert. lia.
Qed.

Lemma destroyTree_strip h t : destroyTree h (strip t) = Some (h, Null).
Proof.
  induction t as [|d l IHl r IHr]; simpl; [done|].
  rewrite IHl. simpl. rewrite IHr. done.
Qed.

Lemma omap_replicate_None h (n : nat) :
  omap (deref h) (replicate n None) = [].
Proof. induction n as [|n IH]; simpl; [done | exact IH]. Qed.

(** What [bstreeToArray] does when the slots from index 10 on suffice. *)
Lemma bstreeToArray_spec h (this : BinTree) (target : list ptr) :
  (10 + size (root this) ≤ length target)%nat →
  bstreeToArray h this target
  = Some (h, BinTree_new,
          take 10 target ++ inorder (root this)
            ++ drop (10 + size (root this)) target).
Proof.
  intros Hlen. unfold bstreeToArray.
  assert (target = take 10 target ++ take (size (root this)) (drop 10 target)
            ++ drop (10 + size (root this)) target) as Hsplit.
  { rewrite <- drop_drop, take_drop, take_drop. done. }
  assert (length (take 10 target) = 10%nat) as Hpre
    by (rewrite length_take; lia).
  pose proof (inorderToArray_spec (root this) (take 10 target)
                (take (size (root this)) (drop 10 target))
                (drop (10 + size (root this)) target)) as Hrun.
  rewrite <- Hsplit, Hpre in Hrun. change (Z.of_nat 10) with 10 in Hrun.
  rewrite Hrun by (rewrite length_take, length_drop; lia).
  simpl. rewrite destroyTree_strip. done.
Qed.

(** Where [bstreeToArray] works: for a tree of [n] elements that satisfies
    the BST invariant and an all-empty buffer of at least [10 + n] slots, it
    leaves the tree empty and the buffer holding the tree's former elements
    in the slots 10 to [10 + n - 1], in ascending order, every other slot
    still empty; the store is unchanged, so no element was freed. *)
Lemma toArray_moves_elements h (this : BinTree) (len : nat) :
  bst h (root this) →
  (10 + size (root this) ≤ len)%nat →
  ∃ target',
    bstreeToArray h this (empty_array len) = Some (h, BinTree_new, target')
    ∧ target' = empty_array 10 ++ inorder (root this)
                  ++ empty_array (len - 10 - size (root this))
    ∧ omap (deref h) target' = keys h (root this)
    ∧ StronglySorted (λ x y, nd_ltb x y = true) (keys h (root this))
    ∧ Forall (λ p, is_Some (deref h p)) (inorder (root this)).
Proof.
  intros Hbst Hlen. eexists. split; [|split; [reflexivity|]].
  - rewrite bstreeToArray_spec
      by (unfold empty_array; rewrite length_replicate; lia).
    unfold empty_array. rewrite take_replicate, drop_replicate.
    replace (10 `min` len)%nat with 10%nat by lia.
    replace (len - (10 + size (root this)))%nat
      with (len - 10 - size (root this))%nat by lia.
    done.
  - split; [|split].
    + unfold empty_array. rewrite !omap_app, !omap_replicate_None.
      simpl. by rewrite app_nil_r.
    + by apply bst_keys_sorted.
    + apply bst_all_live in Hbst. unfold all_keys in Hbst.
      eapply Forall_impl; [exact Hbst|]. intros p (v & Hv & _). by exists v.
Qed.

(** ** Import from an array *)

(** The loop of [arrayToBSTree] stops at the end of the run of non-empty
    slots, or at index 100, provided that it stays inside the array: the run
    ends before the last slot, or the array has at least 100 slots. *)
Lemma scan_high_spec (fuel i : nat) (source : list ptr) :
  (i + fuel = 100)%nat →
  (i + length (leading (take fuel (drop i source))) < length source
   ∨ 100 ≤ length source)%nat →
  scan_high fuel source (Z.of_nat i)
  = Some (Z.of_nat (i + length (leading (take fuel (drop i source))))).
Proof.
  revert i. induction fuel as [|fuel IH]; intros i Hi Hlen.
  - simpl. ztest. simpl. by rewrite Nat.add_0_r.
  - destruct (lookup_lt_is_Some_2 source i) as [q Hq]; [lia|].
    rewrite (drop_S _ _ _ Hq) in Hlen |- *. simpl in Hlen |- *. ztest.
    unfold load. ztest.
    rewrite Nat2Z.id, Hq. simpl. destruct q as [a|]; simpl in Hlen |- *.
    + replace (Z.of_nat i + 1) with (Z.of_nat (S i)) by lia.
      rewrite IH by lia. f_equal. lia.
    + by rewrite Nat.add_0_r.
Qed.

Lemma bisect_mid (low : Z) (m k : nat) :
  1 ≤ low → (m = (m + k) / 2)%nat →
  Z.quot (low + (low + Z.of_nat m + 1 + Z.of_nat k - 1)) 2
  = low + Z.of_nat m.
Proof.
  intros Hlow Hm. rewrite Z.quot_div_nonneg by lia.
  pose proof (Nat.div_mod_eq (m + k) 2) as Hdiv. rewrite <- Hm in Hdiv.
  assert ((m + k) mod 2 < 2)%nat by (apply Nat.mod_upper_bound; lia).
  symmetry. apply Z.div_unique with (r := Z.of_nat ((m + k) mod 2)); lia.
Qed.

Lemma bisect_split (seg : list ptr) :
  seg ≠ [] →
  ∃ s1 p s2, seg = s1 ++ p :: s2
             ∧ (length s1 = (length s1 + length s2) / 2)%nat.
Proof.
  intros Hne. set (m := ((length seg - 1) / 2)%nat).
  assert (0 < length seg)%nat by (destruct seg; [done | simpl; lia]).
  pose proof (Nat.div_mod_eq (length seg - 1) 2) as Hdiv. fold m in Hdiv.
  assert ((length seg - 1) mod 2 < 2)%nat by (apply Nat.mod_upper_bound; lia).
  destruct (lookup_lt_is_Some_2 seg m) as [q Hq]; [lia|].
  exists (take m seg), q, (drop (S m) seg). split.
  - by rewrite take_drop_middle.
  - rewrite length_take, length_drop.
    replace (m `min` length seg + (length seg - S m))%nat
      with (length seg - 1)%nat by lia.
    fold m. lia.
Qed.

(** One call of [bisectBuild] on an empty range that starts after slot 0. *)
Lemma bisectBuild_empty (fuel : nat) h (this : RawTree)
    (source : list ptr) (low high : Z) :
  1 ≤ low → high = low - 1 →
  bisectBuild (S fuel) h this source low high = Some (this, source).
Proof.
  intros Hlow ->. simpl.
  replace (low + (low - 1)) with (1 + (low - 1) * 2) by lia.
  rewrite Z.quot_div_nonneg by lia.
  replace ((1 + (low - 1) * 2) / 2) with (low - 1)
    by (apply Z.div_unique with (r := 1); lia).
  by ztest.
Qed.


(** One call of [bisectBuild] on a range with a midpoint [p]. *)
Lemma bisectBuild_step (fuel : nat) h (this : RawTree)
    (pre s1 s2 post : list ptr) p (low high : Z) :
  low = Z.of_nat (length pre) → 1 ≤ low →
  high = low + Z.of_nat (length s1) + 1 + Z.of_nat (length s2) - 1 →
  (length s1 = (length s1 + length s2) / 2)%nat →
  bisectBuild (S fuel) h this (pre ++ s1 ++ p :: s2 ++ post) low high
  = '(this1, success) ← insert h this p;
    if (success : bool) then
      '(this2, source2) ←
        bisectBuild fuel h this1 (pre ++ s1 ++ None :: s2 ++ post)
          low (low + Z.of_nat (length s1) - 1);
      bisectBuild fuel h this2 source2 (low + Z.of_nat (length s1) + 1) high
    else Some (this1, pre ++ s1 ++ p :: s2 ++ post).
Proof.
  intros Hlow Hpos -> Hmid. simpl.
  rewrite (bisect_mid low _ _ Hpos Hmid). ztest.
  assert (low + Z.of_nat (length s1) = Z.of_nat (length (pre ++ s1))) as Hidx
    by (rewrite length_app; lia).
  rewrite Hidx, (app_assoc pre s1), load_app_mid, store_app_mid. simpl.
  rewrite <- !Hidx, <- !(app_assoc pre s1). done.
Qed.

(** [bisectBuild] on a range that is not empty, when [insert] has no
    defined behaviour for any element of the range: the call inserts the
    midpoint first. *)
Lemma bisectBuild_first_insert (fuel : nat) h (this : RawTree)
    (pre seg post : list ptr) (low high : Z) :
  low = Z.of_nat (length pre) → 1 ≤ low →
  high = low + Z.of_nat (length seg) - 1 →
  seg ≠ [] → Forall (λ q, insert h this q = None) seg →
  bisectBuild fuel h this (pre ++ seg ++ post) low high = None.
Proof.
  intros Hlow Hpos Hhigh Hne Hall. destruct fuel as [|fuel]; [done|].
  destruct (bisect_split seg Hne) as (s1 & p & s2 & -> & Hmid).
  replace ((s1 ++ p :: s2) ++ post) with (s1 ++ p :: s2 ++ post)
    by by rewrite <- app_assoc.
  rewrite (bisectBuild_step fuel h this pre s1 s2 post p low high)
    by (done || (rewrite length_app in Hhigh; simpl in Hhigh; lia)).
  apply Forall_app in Hall as [_ Hall]. apply Forall_cons in Hall as [Hp _].
  by rewrite Hp.
Qed.

(** The data pointers of a tree that satisfies the BST invariant lead, in
    inorder, to strictly ascending elements. *)
Lemma bst_inorder_sorted h t : bst h t → StronglySorted (ptr_lt h) (inorder t).
Proof.
  induction t as [|d l IHl r IHr]; simpl; [intros; constructor|].
  intros (v & Hd & Hlt & Hgt & Hl & Hr). unfold all_keys in Hlt, Hgt.
  rewrite Forall_forall in Hlt, Hgt.
  apply StronglySorted_app. split; [|split; [auto|]].
  - intros q1 q2 Hq1 Hq2. destruct (Hlt q1 Hq1) as (y1 & Hy1 & Hlt1).
    apply elem_of_cons in Hq2 as [->|Hq2]; [by exists y1, v|].
    destruct (Hgt q2 Hq2) as (y2 & Hy2 & Hgt2). exists y1, y2.
    split; [done|]. split; [done|]. eapply nd_ltb_trans; eauto.
  - apply StronglySorted_cons. split; [|auto].
    apply Forall_forall. intros q Hq. destruct (Hgt q Hq) as (y & Hy & Hvy).
    by exists v, y.
Qed.

(** ** Emptying a tree *)

Lemma ptr_lt_irrefl h p : ¬ ptr_lt h p p.
Proof.
  intros (x & y & Hx & Hy & Hlt). assert (x = y) as -> by congruence.
  by rewrite nd_ltb_irrefl in Hlt.
Qed.

(** No data pointer occurs twice in a tree that satisfies the BST
    invariant. *)
Lemma bst_inorder_NoDup h t : bst h t → NoDup (inorder t).
Proof.
  intros Hbst. apply bst_inorder_sorted in Hbst.
  induction Hbst as [|p ps Hps IH Hall]; constructor; [|done].
  intros Hin. rewrite Forall_forall in Hall.
  exact (ptr_lt_irrefl h p (Hall p Hin)).
Qed.

(** [destroyTree] on a tree of live elements, no pointer twice: the
    elements of the tree are deleted, the others are untouched. *)
Lemma destroyTree_spec t :
  ∀ h, NoDup (inorder t) → Forall (λ p, is_Some (deref h p)) (inorder t) →
  ∃ h', destroyTree h t = Some (h', Null)
    ∧ ∀ a, h' !! a = if decide (Some a ∈ inorder t) then None else h !! a.
Proof.
  induction t as [|d l IHl r IHr]; intros h Hnd Hlive; simpl.
  - exists h. split; [done|]. intros a.
    destruct (decide (Some a ∈ [])) as [Hin|_]; [|done].
    by apply elem_of_nil in Hin.
  - simpl in Hnd, Hlive. apply NoDup_app in Hnd as (Hndl & Hdisj & Hnd).
    apply NoDup_cons in Hnd as [Hd Hndr].
    apply Forall_app in Hlive as [Hlivel Hlive].
    apply Forall_cons in Hlive as [Hlived Hliver].
    destruct (IHl h Hndl Hlivel) as (h1 & -> & Hh1). simpl.
    destruct (IHr h1 Hndr) as (h2 & -> & Hh2).
    { rewrite Forall_forall in Hliver |- *. intros q Hq.
      specialize (Hliver q Hq). destruct q as [a|]; simpl in *;
        [|by destruct Hliver].
      rewrite Hh1. case_decide as Hin; [|done].
      destruct (Hdisj _ Hin). apply elem_of_cons. auto. }
    simpl. destruct d as [a0|]; simpl in Hlived; [|by destruct Hlived].
    unfold delete_data.
    assert (h2 !! a0 = h !! a0) as Ha0.
    { rewrite Hh2. case_decide as Hin; [done|]. rewrite Hh1.
      case_decide as Hin'; [|done].
      destruct (Hdisj _ Hin'). apply elem_of_cons. auto. }
    rewrite Ha0. destruct Hlived as [v ->]. simpl.
    eexists. split; [done|]. intros a.
    rewrite lookup_delete, Hh2, Hh1.
    assert (Some a ∈ inorder l ++ Some a0 :: inorder r
            ↔ a0 = a ∨ Some a ∈ inorder r ∨ Some a ∈ inorder l) as Hiff.
    { rewrite elem_of_app, elem_of_cons.
      split; [intros [?|[[= ->]|?]] | intros [->|[?|?]]]; auto. }
    destruct (decide (a0 = a));
      [rewrite decide_True by (apply Hiff; auto); done|].
    destruct (decide (Some a ∈ inorder r));
      [rewrite decide_True by (apply Hiff; auto); done|].
    destruct (decide (Some a ∈ inorder l));
      [rewrite decide_True by (apply Hiff; auto); done|].
    rewrite decide_False; [done|]. rewrite Hiff. tauto.
Qed.

(** ** Copies are independent *)

(** After a copy, emptying either tree leaves every element of the other
    as it was. *)
Lemma copy_independent h (orig : BinTree) :
  bst h (root orig) →
  ∃ h' copy, BinTree_copy h orig = Some (h', copy)
    ∧ (∃ h1, makeEmpty h' copy = Some (h1, BinTree_new)
             ∧ ∀ p, p ∈ inorder (root orig) → deref h1 p = deref h p)
    ∧ (∃ h2, makeEmpty h' orig = Some (h2, BinTree_new)
             ∧ ∀ p, p ∈ inorder (root copy) → deref h2 p = deref h' p).
Proof.
  intros Hbst. pose proof (bst_all_live _ _ Hbst) as Hlive.
  pose proof (bst_inorder_NoDup _ _ Hbst) as Hnd.
  unfold BinTree_copy, makeEmpty.
  destruct (copyTree_spec (root orig) h Hlive)
    as (h' & t' & -> & Hsub & _ & _ & Hnd' & Hfresh).
  simpl. exists h', (mkBinTree t'). simpl. split; [done|].
  unfold all_keys in Hlive. rewrite Forall_forall in Hlive.
  pose proof Hfresh as Hfresh'. rewrite Forall_forall in Hfresh'.
  split.
  - destruct (destroyTree_spec t' h' Hnd') as (h1 & -> & Hh1).
    { eapply Forall_impl; [exact Hfresh|]. by intros p [? _]. }
    simpl. exists h1. split; [done|]. intros [a|] Hp; [|done].
    destruct (Hlive _ Hp) as (w & Hw & _). simpl. rewrite Hh1.
    rewrite decide_False.
    + simpl in Hw. rewrite Hw. by eapply lookup_weaken.
    + intros Hin. destruct (Hfresh' _ Hin) as [_ Hnone]. congruence.
  - destruct (destroyTree_spec (root orig) h' Hnd) as (h2 & -> & Hh2).
    { apply Forall_forall. intros p Hp. destruct (Hlive _ Hp) as (w & Hw & _).
      exists w. by eapply deref_weaken. }
    simpl. exists h2. split; [done|]. intros [a|] Hp; [|done].
    simpl. rewrite Hh2. rewrite decide_False; [done|].
    intros Hin. destruct (Hfresh' _ Hp) as [_ Hnone].
    destruct (Hlive _ Hin) as (w & Hw & _). congruence.
Qed.

(** ** The run of non-empty slots *)

Lemma leading_prefix (a : list ptr) : leading a = take (length (leading a)) a.
Proof.
  induction a as [|[x|] a IH]; simpl; [done| |done]. by rewrite <- IH.
Qed.

Lemma leading_live (a : list ptr) : Forall (λ p, p ≠ None) (leading a).
Proof.
  induction a as [|[x|] a IH]; simpl; [constructor| |constructor].
  constructor; [done | exact IH].
Qed.

Lemma leading_app_empty (l : list ptr) (n : nat) :
  Forall (λ p, p ≠ None) l → leading (l ++ replicate n None) = l.
Proof.
  induction 1 as [|[x|] l Hx _ IH]; simpl.
  - by destruct n.
  - by rewrite IH.
  - done.
Qed.

Lemma run_of_length (source : list ptr) : (length (run_of source) ≤ 90)%nat.
Proof.
  unfold run_of. rewrite leading_prefix, length_take, length_take. lia.
Qed.

(** The array is the ten slots that are skipped, the run, and the rest. *)
Lemma run_of_split (source : list ptr) :
  source = take 10 source ++ run_of source
             ++ drop (10 + length (run_of source)) source.
Proof.
  pose proof (run_of_length source) as Hlen.
  assert (run_of source = take (length (run_of source)) (drop 10 source))
    as Hrun.
  { unfold run_of at 1. rewrite leading_prefix. fold (run_of source).
    rewrite take_take. f_equal. lia. }
  rewrite Hrun at 1. rewrite <- drop_drop, take_drop, take_drop. done.
Qed.

Local Arguments bisectBuild : simpl never.
Local Arguments scan_high : simpl never.

(** [arrayToBSTree] when the scan stays inside the array: the tree is
    emptied, and [bisectBuild] runs on the run of non-empty slots that
    starts at slot 10, if there is one. *)
Lemma arrayToBSTree_run h (this : BinTree) h' (source : list ptr) :
  scan_in_bounds source →
  makeEmpty h this = Some (h', BinTree_new) →
  arrayToBSTree h this source
  = match run_of source with
    | [] => Some (h', raw_tree BinTree_new, source)
    | _ :: _ =>
        '(this1, source1) ←
          bisectBuild 100 h' (raw_tree BinTree_new) source 10
            (10 + Z.of_nat (length (run_of source)) - 1);
        Some (h', this1, source1)
    end.
Proof.
  intros Hlen Hempty. unfold arrayToBSTree. rewrite Hempty. simpl.
  pose proof (scan_high_spec 90 10 source eq_refl Hlen) as Hscan.
  change (Z.of_nat 10) with 10 in Hscan. rewrite Hscan.
  fold (run_of source). simpl.
  unfold load. ztest. change (Z.to_nat 10) with 10%nat.
  destruct (lookup_lt_is_Some_2 source 10) as [q Hq];
    [unfold scan_in_bounds in Hlen; lia|].
  rewrite Hq. simpl. unfold run_of. rewrite (drop_S _ _ _ Hq). simpl.
  destruct q as [a|]; simpl; [|done].
  repeat f_equal. lia.
Qed.

Lemma sorted_NoDup (vs : list NodeData) :
  StronglySorted (λ x y, nd_ltb x y = true) vs → NoDup vs.
Proof.
  induction 1 as [|v vs _ IH Hall]; constructor; [|done].
  intros Hin. rewrite Forall_forall in Hall.
  specialize (Hall v Hin). simpl in Hall. by rewrite nd_ltb_irrefl in Hall.
Qed.

(** After the first element of a range is inserted into the empty tree,
    [insert] of any other element of the range, live and of another value,
    goes down an unassigned link. *)
Lemma insert_beside_new h (s1 s2 : list ptr) p :
  Forall (λ q, is_Some (deref h q)) (s1 ++ p :: s2) →
  NoDup (omap (deref h) (s1 ++ p :: s2)) →
  Forall (λ q, insert h (mkRawTree (RCell p Unassigned Unassigned)) q = None)
    (s1 ++ s2).
Proof.
  intros Hlive Hnd.
  assert (Hperm : s1 ++ p :: s2 ≡ₚ p :: s1 ++ s2)
    by by rewrite <- Permutation_middle.
  rewrite Hperm in Hlive, Hnd.
  apply Forall_cons in Hlive as [[x Hp] Hlive].
  simpl in Hnd. rewrite Hp in Hnd. apply NoDup_cons in Hnd as [Hfresh _].
  rewrite Forall_forall in Hlive |- *. intros q Hq.
  destruct (Hlive q Hq) as [y Hy]. unfold insert. cbn [raw_root].
  rewrite (insertItem_beside_new h p q y x); [done|done|done|].
  intros ->. apply Hfresh. apply list_elem_of_omap. eauto.
Qed.

Lemma insert_any_second h (run : list ptr) p q :
  Forall (λ p, is_Some (deref h p)) run →
  NoDup (omap (deref h) run) →
  p ∈ run → q ∈ run → p ≠ q →
  insert h (mkRawTree (RCell p Unassigned Unassigned)) q = None.
Proof.
  intros Hlive Hnd Hp Hq Hpq.
  apply list_elem_of_split in Hp as (s1 & s2 & ->).
  pose proof (insert_beside_new h s1 s2 p Hlive Hnd) as Hnext.
  rewrite Forall_forall in Hnext. apply Hnext.
  rewrite elem_of_app, elem_of_cons in Hq. rewrite elem_of_app.
  destruct Hq as [?|[?|?]]; [by left | congruence | by right].
Qed.

(** [bisectBuild] from the empty tree on a range of two or more live
    elements of pairwise different values: the midpoint of the range becomes
    the root, a cell without assigned links, and the next [insert] goes
    down one of them. *)
Lemma bisectBuild_second_insert (fuel : nat) h (pre seg post : list ptr)
    (low high : Z) :
  low = Z.of_nat (length pre) → 1 ≤ low →
  high = low + Z.of_nat (length seg) - 1 →
  (2 ≤ length seg)%nat →
  Forall (λ p, is_Some (deref h p)) seg →
  NoDup (omap (deref h) seg) →
  bisectBuild fuel h (raw_tree BinTree_new) (pre ++ seg ++ post) low high
  = None.
Proof.
  intros Hlow Hpos Hhigh Htwo Hlive Hnd. destruct fuel as [|fuel]; [done|].
  assert (Hne : seg ≠ []) by (intros ->; simpl in Htwo; lia).
  destruct (bisect_split seg Hne) as (s1 & p & s2 & -> & Hmid).
  rewrite length_app in Htwo, Hhigh. simpl in Htwo, Hhigh.
  pose proof (insert_beside_new h s1 s2 p Hlive Hnd) as Hnext.
  apply Forall_app in Hnext as [Hnext1 Hnext2].
  replace ((s1 ++ p :: s2) ++ post) with (s1 ++ p :: s2 ++ post)
    by by rewrite <- app_assoc.
  rewrite (bisectBuild_step fuel h (raw_tree BinTree_new) pre s1 s2 post p
             low high) by (done || lia).
  change (insert h (raw_tree BinTree_new) p)
    with (Some (mkRawTree (RCell p Unassigned Unassigned), true)).
  cbn [mbind option_bind].
  set (this1 := mkRawTree (RCell p Unassigned Unassigned)) in *.
  destruct (decide (s1 = [])) as [->|Hne1].
  - assert (s2 ≠ []) as Hne2 by (intros ->; simpl in Htwo; lia).
    destruct fuel as [|fuel]; [done|].
    rewrite bisectBuild_empty by (simpl; lia). cbn [mbind option_bind].
    assert (Hb : bisectBuild (S fuel) h this1 ((pre ++ [None]) ++ s2 ++ post)
                   (low + Z.of_nat (length (@nil ptr)) + 1) high = None).
    { apply bisectBuild_first_insert; [|lia| |done|done].
      - rewrite length_app. simpl. lia.
      - simpl in *. lia. }
    rewrite <- app_assoc in Hb. exact Hb.
  - assert (Hb : bisectBuild fuel h this1 (pre ++ s1 ++ None :: s2 ++ post)
                   low (low + Z.of_nat (length s1) - 1) = None).
    { apply bisectBuild_first_insert; [done|done|done|done|done]. }
    by rewrite Hb.
Qed.

(** [arrayToBSTree] on an array in which the scan stays in bounds and whose
    run holds two or more live elements of pairwise different values. *)
Lemma arrayToBSTree_second_insert h (source : list ptr) :
  scan_in_bounds source →
  (2 ≤ length (run_of source))%nat →
  Forall (λ p, is_Some (deref h p)) (run_of source) →
  NoDup (omap (deref h) (run_of source)) →
  arrayToBSTree h BinTree_new source = None.
Proof.
  intros Hlen Htwo Hlive Hnd.
  rewrite (arrayToBSTree_run h BinTree_new h) by done.
  pose proof (run_of_split source) as Hsplit.
  unfold scan_in_bounds in Hlen.
  destruct (run_of source) as [|p0 run0] eqn:Erun; [simpl in Htwo; lia|].
  rewrite Hsplit at 1.
  rewrite bisectBuild_second_insert; [done| |lia|done|done|done|done].
  rewrite length_take. simpl in Hlen. lia.
Qed.

(** C10: the claim fails on a run of two elements.  On an array in which
    the scan stays in bounds and whose run of non-empty slots from index 10
    holds two or more live elements of pairwise different values,
    [arrayToBSTree] on the empty tree does not insert the elements of the
    run: the first [insert] makes the root, whose links [insertItem] never
    assigns, and the [insert] of any other element of the run goes down one
    of them, which has no defined behaviour. *)
Theorem fromArray_second_element_undefined h (source : list ptr) :
  scan_in_bounds source →
  (2 ≤ length (run_of source))%nat →
  Forall (λ p, is_Some (deref h p)) (run_of source) →
  NoDup (omap (deref h) (run_of source)) →
  makeEmpty h BinTree_new = Some (h, BinTree_new)
  ∧ (∀ p q, p ∈ run_of source → q ∈ run_of source → p ≠ q →
       insert h (raw_tree BinTree_new) p
       = Some (mkRawTree (RCell p Unassigned Unassigned), true)
       ∧ insert h (mkRawTree (RCell p Unassigned Unassigned)) q = None)
  ∧ arrayToBSTree h BinTree_new source = None.
Proof.
  intros Hlen Htwo Hlive Hnd. split; [done|].
  split; [|by apply arrayToBSTree_second_insert].
  intros p q Hp Hq Hpq. split; [done|].
  by apply (insert_any_second h (run_of source)).
Qed.

(** C3: the claim fails on every tree of two or more elements.  The export
    of a tree of [n] elements, [2 ≤ n ≤ 90], that satisfies the BST
    invariant into an all-empty buffer with room for it works, and leaves
    the elements as the run of the buffer; the import of that buffer does
    not give a tree: after the first [insert] the root is a cell whose
    links were never assigned, and the second [insert] goes down one of
    them. *)
Theorem roundtrip_import_undefined h (this : BinTree) (len : nat) :
  bst h (root this) →
  (2 ≤ size (root this) ≤ 90)%nat →
  (10 + size (root this) < len ∨ 100 ≤ len)%nat →
  ∃ target,
    bstreeToArray h this (empty_array len) = Some (h, BinTree_new, target)
    ∧ run_of target = inorder (root this)
    ∧ (∀ p q, p ∈ run_of target → q ∈ run_of target → p ≠ q →
         insert h (raw_tree BinTree_new) p
         = Some (mkRawTree (RCell p Unassigned Unassigned), true)
         ∧ insert h (mkRawTree (RCell p Unassigned Unassigned)) q = None)
    ∧ arrayToBSTree h BinTree_new target = None.
Proof.
  intros Hbst Hsize Hlen. set (n := size (root this)) in *.
  assert (Hlive : Forall (λ p, is_Some (deref h p)) (inorder (root this))).
  { pose proof (bst_all_live _ _ Hbst) as Hall. unfold all_keys in Hall.
    eapply Forall_impl; [exact Hall|]. intros p (v & Hv & _). by exists v. }
  assert (Hsome : Forall (λ p : ptr, p ≠ None) (inorder (root this))).
  { eapply Forall_impl; [exact Hlive|]. intros [a|] Hp; [done|].
    by destruct Hp. }
  set (target := replicate 10 (None : ptr) ++ inorder (root this)
                   ++ replicate (len - 10 - n) None).
  assert (Hexport : bstreeToArray h this (empty_array len)
                    = Some (h, BinTree_new, target)).
  { rewrite bstreeToArray_spec
      by (unfold empty_array; rewrite length_replicate; lia).
    unfold empty_array. rewrite take_replicate, drop_replicate.
    replace (10 `min` len)%nat with 10%nat by lia.
    replace (len - (10 + size (root this)))%nat with (len - 10 - n)%nat
      by (unfold n; lia).
    done. }
  assert (Hlen' : length target = len).
  { unfold target. rewrite !length_app, !length_replicate, inorder_length.
    fold n. lia. }
  assert (Hrun : run_of target = inorder (root this)).
  { unfold run_of, target. rewrite drop_app_length' by by rewrite length_replicate.
    rewrite take_app_ge by (rewrite inorder_length; fold n; lia).
    rewrite take_replicate. by apply leading_app_empty. }
  assert (Hnd : NoDup (omap (deref h) (run_of target))).
  { rewrite Hrun. apply sorted_NoDup. by apply bst_keys_sorted. }
  exists target. split; [done|]. split; [done|]. split.
  - intros p q Hp Hq Hpq. split; [done|].
    apply (insert_any_second h (run_of target)); try done. by rewrite Hrun.
  - apply arrayToBSTree_second_insert; [| |by rewrite Hrun|done].
    + unfold scan_in_bounds. rewrite Hrun, inorder_length. fold n. lia.
    + rewrite Hrun, inorder_length. fold n. lia.
Qed.

(** A tree of live elements whose values are strictly ascending in inorder
    satisfies the BST invariant. *)
Lemma bst_of_sorted_keys h t :
  Forall (λ p, is_Some (deref h p)) (inorder t) →
  StronglySorted (λ x y, nd_ltb x y = true) (keys h t) →
  bst h t.
Proof.
  induction t as [|d l IHl r IHr]; simpl; [done|].
  rewrite Forall_app, Forall_cons. intros (Hl & [v Hd] & Hr).
  rewrite (keys_Cell _ _ _ _ _ Hd).
  intros (Hcross & Hsl & Hsr)%StronglySorted_app.
  apply StronglySorted_cons in Hsr as [Hall Hsr].
  exists v. split; [done|].
  split; [|split; [|split; [by apply IHl | by apply IHr]]].
  - unfold all_keys. rewrite Forall_forall in Hl |- *. intros p Hp.
    destruct (Hl p Hp) as [w Hw]. exists w. split; [done|].
    apply Hcross; [|apply elem_of_cons; by left].
    apply list_elem_of_omap. eauto.
  - unfold all_keys. rewrite Forall_forall in Hall.
    rewrite Forall_forall in Hr |- *. intros p Hp.
    destruct (Hr p Hp) as [w Hw]. exists w. split; [done|].
    apply Hall. apply list_elem_of_omap. eauto.
Qed.

End Invariants.

(** ** The properties on integer elements *)

#[export] Instance Z_NodeDataOrder : NodeDataOrder Z.
Proof.
  split; simpl.
  - intros x y. apply Z.eqb_eq.
  - intros x. apply Z.ltb_irrefl.
  - intros x y z. rewrite !Z.ltb_lt. lia.
  - intros x y. rewrite !Z.ltb_lt. lia.
Qed.

(** A tree of live integers, strictly ascending in inorder, satisfies the
    BST invariant. *)
Lemma bst_by_sorted_keys (h : gmap addr Z) (t : Node) :
  forallb (λ p, bool_decide (is_Some (deref h p))) (inorder t) = true →
  bool_decide (StronglySorted Z.lt (keys h t)) = true →
  bst h t.
Proof.
  intros Hlive Hsorted. apply bst_of_sorted_keys.
  - apply Forall_forall. intros p Hp.
    rewrite forallb_forall in Hlive.
    apply list_elem_of_In in Hp. apply Hlive in Hp.
    by apply bool_decide_eq_true_1 in Hp.
  - apply bool_decide_eq_true_1 in Hsorted.
    induction Hsorted as [|v vs _ IH Hall]; constructor; [done|].
    eapply Forall_impl; [exact Hall|]. intros y Hvy. by apply Z.ltb_lt.
Qed.

Lemma bst_tree5 : bst store5 (root tree5).
Proof. apply bst_by_sorted_keys; by vm_compute. Qed.

Lemma bst_tree5_one : bst store5 (root tree5_one).
Proof. apply bst_by_sorted_keys; by vm_compute. Qed.

Lemma insert_duplicate_rejected_witness :
  bst store5 (root tree5)
  ∧ deref store5 (Some 2%positive) = Some 3
  ∧ 3 ∈ keys store5 (root tree5)
  ∧ insert store5 (raw_tree tree5) (Some 2%positive)
    = Some (raw_tree tree5, false).
Proof.
  assert (Hin : 3 ∈ keys store5 (root tree5)).
  { vm_compute. apply elem_of_cons. right. apply elem_of_cons. by left. }
  split; [exact bst_tree5|]. split; [reflexivity|]. split; [exact Hin|].
  exact (insert_duplicate_rejected store5 tree5 (Some 2%positive) 3
           bst_tree5 eq_refl Hin).
Defined.

Lemma second_insertion_undefined_witness :
  deref store5 (Some 1%positive) = Some 5
  ∧ deref store5 (Some 2%positive) = Some 3
  ∧ 5 ≠ 3
  ∧ ∃ this1,
      insert store5 (raw_tree BinTree_new) (Some 1%positive)
        = Some (this1, true)
      ∧ raw_root this1 = RCell (Some 1%positive) Unassigned Unassigned
      ∧ insert store5 this1 (Some 2%positive) = None
      ∧ insert_all store5 (raw_tree BinTree_new)
          (Some 1%positive :: Some 2%positive
             :: [Some 3%positive; Some 4%positive; Some 5%positive])
        = None.
Proof.
  assert (Hne : (5 : Z) ≠ 3) by lia.
  split; [reflexivity|]. split; [reflexivity|]. split; [exact Hne|].
  exact (second_insertion_undefined store5 (Some 1%positive)
           (Some 2%positive) 5 3
           [Some 3%positive; Some 4%positive; Some 5%positive]
           eq_refl eq_refl Hne).
Defined.

Lemma retrieve_reads_unassigned_link_witness :
  deref store5 (Some 1%positive) = Some 5
  ∧ 3 ≠ 5
  ∧ ∃ this1,
      insert store5 (raw_tree BinTree_new) (Some 1%positive)
        = Some (this1, true)
      ∧ retrieve_raw store5 this1 5 None = Some (true, Some 1%positive)
      ∧ retrieve_raw store5 this1 3 None = None.
Proof.
  assert (Hne : (3 : Z) ≠ 5) by lia.
  split; [reflexivity|]. split; [exact Hne|].
  exact (retrieve_reads_unassigned_link store5 (Some 1%positive) 5 3 None
           eq_refl Hne).
Defined.

Lemma getDepth_levels_witness :
  bst store5 (root tree5)
  ∧ getDepth store5 tree5 5 = Some 1
  ∧ getDepth store5 tree5 9 = Some 0
  ∧ getDepth store5 tree5 8 = Some 2
  ∧ getDepth store5 tree5 4 = Some 3.
Proof.
  destruct (getDepth_levels store5 tree5 bst_tree5) as (Hroot & Habsent & Hat).
  split; [exact bst_tree5|]. split; [|split; [|split]].
  - by eapply Hroot.
  - apply Habsent. vm_compute. intros Hin.
    repeat (apply elem_of_cons in Hin as [Hin|Hin]; [discriminate|]).
    by apply elem_of_nil in Hin.
  - apply (Hat 8 (1 + 1)). apply at_level_right.
    by eapply at_level_here.
  - apply (Hat 4 (1 + 1 + 1)). apply at_level_left, at_level_right.
    by eapply at_level_here.
Defined.

Lemma toArray_moves_elements_example :
  bst store5 (root tree5)
  ∧ (10 + size (root tree5) ≤ 100)%nat
  ∧ ∃ target',
      bstreeToArray store5 tree5 (empty_array 100)
        = Some (store5, BinTree_new, target')
      ∧ target' = empty_array 10 ++ inorder (root tree5)
                    ++ empty_array (100 - 10 - size (root tree5))
      ∧ omap (deref store5) target' = keys store5 (root tree5)
      ∧ StronglySorted (λ x y, nd_ltb x y = true) (keys store5 (root tree5))
      ∧ Forall (λ p, is_Some (deref store5 p)) (inorder (root tree5)).
Proof.
  assert (Hfit : (10 + size (root tree5) ≤ 100)%nat) by (simpl; lia).
  split; [exact bst_tree5|]. split; [exact Hfit|].
  exact (toArray_moves_elements store5 tree5 100 bst_tree5 Hfit).
Defined.

Lemma live_run_source5 :
  Forall (λ p, is_Some (deref store5 p)) (run_of source5).
Proof.
  apply Forall_forall. intros p Hp. vm_compute in Hp.
  repeat (apply elem_of_cons in Hp as [->|Hp]; [by eexists|]).
  by apply elem_of_nil in Hp.
Qed.

Lemma fromArray_second_element_undefined_witness :
  scan_in_bounds source5
  ∧ (2 ≤ length (run_of source5))%nat
  ∧ Forall (λ p, is_Some (deref store5 p)) (run_of source5)
  ∧ NoDup (omap (deref store5) (run_of source5))
  ∧ makeEmpty store5 BinTree_new = Some (store5, BinTree_new)
  ∧ (∀ p q, p ∈ run_of source5 → q ∈ run_of source5 → p ≠ q →
       insert store5 (raw_tree BinTree_new) p
       = Some (mkRawTree (RCell p Unassigned Unassigned), true)
       ∧ insert store5 (mkRawTree (RCell p Unassigned Unassigned)) q = None)
  ∧ arrayToBSTree store5 BinTree_new source5 = None.
Proof.
  assert (Hscan : scan_in_bounds source5) by (right; vm_compute; lia).
  assert (Htwo : (2 ≤ length (run_of source5))%nat) by (vm_compute; lia).
  assert (Hnd : NoDup (omap (deref store5) (run_of source5))).
  { refine (bool_decide_unpack _ _). by vm_compute. }
  split; [exact Hscan|]. split; [exact Htwo|].
  split; [exact live_run_source5|]. split; [exact Hnd|].
  exact (fromArray_second_element_undefined store5 source5 Hscan Htwo
           live_run_source5 Hnd).
Defined.

Lemma roundtrip_import_undefined_witness :
  bst store5 (root tree5)
  ∧ (2 ≤ size (root tree5) ≤ 90)%nat
  ∧ (10 + size (root tree5) < 100 ∨ 100 ≤ 100)%nat
  ∧ ∃ target,
      bstreeToArray store5 tree5 (empty_array 100)
        = Some (store5, BinTree_new, target)
      ∧ run_of target = inorder (root tree5)
      ∧ (∀ p q, p ∈ run_of target → q ∈ run_of target → p ≠ q →
           insert store5 (raw_tree BinTree_new) p
           = Some (mkRawTree (RCell p Unassigned Unassigned), true)
           ∧ insert store5 (mkRawTree (RCell p Unassigned Unassigned)) q
             = None)
      ∧ arrayToBSTree store5 BinTree_new target = None.
Proof.
  assert (Hsize : (2 ≤ size (root tree5) ≤ 90)%nat) by (simpl; lia).
  assert (Hlen : (10 + size (root tree5) < 100 ∨ 100 ≤ 100)%nat)
    by (right; lia).
  split; [exact bst_tree5|]. split; [exact Hsize|]. split; [exact Hlen|].
  exact (roundtrip_import_undefined store5 tree5 100 bst_tree5 Hsize Hlen).
Defined.

(** ** Where the array operations leave their domain *)

Lemma bst_tree_asc_91 : bst (store_asc 91) (root (tree_asc 91)).
Proof. apply bst_by_sorted_keys; by vm_compute. Qed.

(** C6: a tree of 91 elements fits an all-empty buffer of 100 slots, yet
    [bstreeToArray], which starts writing at slot 10 and not at slot 0,
    runs past the last slot of the buffer: the 91st element has no slot. *)
Theorem toArray_overflow_at_capacity :
  bst (store_asc 91) (root (tree_asc 91))
  ∧ (size (root (tree_asc 91)) ≤ length (empty_array 100))%nat
  ∧ bstreeToArray (store_asc 91) (tree_asc 91) (empty_array 100) = None.
Proof.
  split; [exact bst_tree_asc_91|]. split; [vm_compute; lia|].
  by vm_compute.
Qed.

(** ** The examples of the specification *)

(** In the sample tree the depth of 8 is 2, of 4 is 3, of 9, which is
    absent, 0; its sorted output is [1 3 4 5 8], each element after a
    space, then a newline. *)
Example example_depths :
  getDepth store5 tree5 8 = Some 2
  ∧ getDepth store5 tree5 4 = Some 3
  ∧ getDepth store5 tree5 9 = Some 0
  ∧ stream_out store5 EmptyString tree5
    = Some (" 1 3 4 5 8" +:+ String (Ascii.ascii_of_nat 10) EmptyString).
Proof. repeat split; by vm_compute. Qed.

(** * Further properties of the class *)

(** ** Equality is identity of shape and pointers *)

(** X1: [operator==] returns true exactly when the two trees have the same
    shape and the same data pointer at every position, whatever the
    elements behind the pointers are; [operator!=] is its negation. *)
Theorem op_eq_same_pointers (t1 t2 : BinTree) :
  (op_eq t1 t2 = true ↔ t1 = t2) ∧ (op_ne t1 t2 = true ↔ t1 ≠ t2).
Proof.
  assert (Heq : op_eq t1 t2 = true ↔ t1 = t2).
  { unfold op_eq. rewrite compare_eq. destruct t1, t2; simpl.
    split; congruence. }
  split; [exact Heq|]. unfold op_ne. rewrite negb_true_iff.
  rewrite <- Heq. by destruct (op_eq t1 t2).
Qed.

Section MoreProperties.
Context {NodeData : Type} `{NodeDataOrder NodeData}.
Implicit Types (h : gmap addr NodeData) (t l r : Node) (p d : ptr)
  (x y v : NodeData).

(** ** Emptying a tree and shared elements *)

Lemma all_keys_live h t :
  all_keys (λ _, True) h t → Forall (λ p, is_Some (deref h p)) (inorder t).
Proof.
  unfold all_keys. intros Hall. eapply Forall_impl; [exact Hall|].
  intros p (v & Hv & _). by exists v.
Qed.

(** X2: on a tree of live elements in which no pointer occurs twice,
    [makeEmpty] leaves the tree empty, deletes every element of the tree
    and touches no other object of the store. *)
Theorem makeEmpty_deletes_own_elements h (this : BinTree) :
  NoDup (inorder (root this)) →
  Forall (λ p, is_Some (deref h p)) (inorder (root this)) →
  ∃ h' this',
    makeEmpty h this = Some (h', this')
    ∧ isEmpty this' = true
    ∧ ∀ a, h' !! a
           = if decide (Some a ∈ inorder (root this)) then None else h !! a.
Proof.
  intros Hnd Hlive. unfold makeEmpty.
  destruct (destroyTree_spec (root this) h Hnd Hlive) as (h' & -> & Hh').
  simpl. by exists h', (mkBinTree Null).
Qed.

Lemma destroyTree_keeps_None h t h' t' a :
  destroyTree h t = Some (h', t') → h !! a = None → h' !! a = None.
Proof.
  revert h h' t'. induction t as [|d l IHl r IHr]; intros h h' t'; simpl.
  - by intros [= <- _].
  - destruct (destroyTree h l) as [[h1 ?]|] eqn:E1; simpl; [|done].
    destruct (destroyTree h1 r) as [[h2 ?]|] eqn:E2; simpl; [|done].
    intros Hd Ha. apply (IHl _ _ _ E1) in Ha. apply (IHr _ _ _ E2) in Ha.
    destruct d as [a0|]; simpl in Hd.
    + unfold delete_data in Hd. destruct (h2 !! a0); simpl in Hd; [|done].
      injection Hd as <- _. rewrite lookup_delete. by case_decide.
    + by injection Hd as <- _.
Qed.

Lemma destroyTree_deleted h t h' t' a :
  destroyTree h t = Some (h', t') → Some a ∈ inorder t → h' !! a = None.
Proof.
  revert h h' t'. induction t as [|d l IHl r IHr]; intros h h' t'; simpl.
  - intros _ Hin. by apply elem_of_nil in Hin.
  - destruct (destroyTree h l) as [[h1 ?]|] eqn:E1; simpl; [|done].
    destruct (destroyTree h1 r) as [[h2 ?]|] eqn:E2; simpl; [|done].
    intros Hd Hin.
    assert (Hlast : ∀ b, h2 !! b = None → h' !! b = None).
    { intros b Hb. destruct d as [a0|]; simpl in Hd.
      - unfold delete_data in Hd. destruct (h2 !! a0); simpl in Hd; [|done].
        injection Hd as <- _. rewrite lookup_delete. by case_decide.
      - by injection Hd as <- _. }
    apply elem_of_app in Hin as [Hin|Hin].
    { apply Hlast. eapply destroyTree_keeps_None; [exact E2|]. eauto. }
    apply elem_of_cons in Hin as [<-|Hin]; [|apply Hlast; eauto].
    simpl in Hd. unfold delete_data in Hd.
    destruct (h2 !! a); simpl in Hd; [|done].
    injection Hd as <- _. apply lookup_delete_eq.
Qed.

Lemma destroyTree_dangling h t a :
  Some a ∈ inorder t → h !! a = None → destroyTree h t = None.
Proof.
  revert h. induction t as [|d l IHl r IHr]; intros h; simpl.
  - intros Hin. by apply elem_of_nil in Hin.
  - intros Hin Ha.
    destruct (destroyTree h l) as [[h1 ?]|] eqn:E1; simpl; [|done].
    pose proof (destroyTree_keeps_None _ _ _ _ _ E1 Ha) as Ha1.
    destruct (destroyTree h1 r) as [[h2 ?]|] eqn:E2; simpl; [|done].
    pose proof (destroyTree_keeps_None _ _ _ _ _ E2 Ha1) as Ha2.
    apply elem_of_app in Hin as [Hin|Hin].
    { by rewrite (IHl h Hin Ha) in E1. }
    apply elem_of_cons in Hin as [<-|Hin].
    + simpl. unfold delete_data. by rewrite Ha2.
    + by rewrite (IHr h1 Hin Ha1) in E2.
Qed.

(** X3: when two trees hold the same element object, emptying one of them
    deletes the object, and emptying the other afterwards deletes it a
    second time. *)
Theorem shared_element_deleted_twice h (this other : BinTree) h' this' a :
  Some a ∈ inorder (root this) → Some a ∈ inorder (root other) →
  makeEmpty h this = Some (h', this') →
  h' !! a = None ∧ makeEmpty h' other = None.
Proof.
  intros Hthis Hother. unfold makeEmpty.
  destruct (destroyTree h (root this)) as [[h1 r1]|] eqn:E; simpl; [|done].
  intros [= <- _].
  pose proof (destroyTree_deleted _ _ _ _ _ E Hthis) as Ha.
  split; [done|]. by rewrite (destroyTree_dangling _ _ _ Hother Ha).
Qed.

(** ** Pointers that [insert] does not check *)


(** ** Insert, then look up *)

(** [insertItem] of an element whose value is absent, on a tree that
    satisfies the BST invariant: the new cell holds the pointer, a search
    for the new value ends at the new cell, and a search for a value of the
    tree never reaches it. *)
Lemma insertItem_absent h t p x :
  bst h t → deref h p = Some x → x ∉ keys h t →
  ∃ T' : RawNode,
    insertItem h (raw t) p = Some (T', true)
    ∧ (∀ dataItem, retrieveItem_raw h T' x dataItem = Some (true, p))
    ∧ (∀ y dataItem, y ∈ keys h t →
         retrieveItem_raw h T' y dataItem = retrieveItem h t y dataItem).
Proof.
  intros Hbst Hp. revert Hbst.
  induction t as [|d l IHl r IHr]; intros Hbst Hnew; simpl.
  - exists (RCell p Unassigned Unassigned). split; [done|]. split.
    + intros dataItem. simpl. rewrite Hp. simpl. by rewrite nd_eqb_refl.
    + intros y dataItem Hy. by apply elem_of_nil in Hy.
  - pose proof Hbst as (v & Hd & Hlt & Hgt & Hl & Hr).
    rewrite (keys_Cell _ _ _ _ _ Hd), elem_of_app, elem_of_cons in Hnew.
    assert (Eeq : nd_eqb x v = false).
    { apply nd_eqb_neq. intros ->. apply Hnew. auto. }
    rewrite Hp, Hd. simpl. rewrite Eeq.
    destruct (nd_ltb x v) eqn:Elt.
    + destruct (IHl Hl) as (L' & -> & Hfind & Hold); [tauto|]. simpl.
      exists (RCell d L' (raw r)). split; [done|]. split.
      * intros dataItem. simpl. rewrite Hd. simpl. by rewrite Eeq, Elt.
      * intros y dataItem. simpl. rewrite Hd. simpl.
        rewrite (keys_Cell _ _ _ _ _ Hd), elem_of_app, elem_of_cons.
        destruct (nd_eqb y v) eqn:Ey; [done|].
        destruct (nd_ltb y v) eqn:Ely.
        -- intros [Hy|[->|Hy]]; [by apply Hold | |].
           ++ by rewrite nd_eqb_refl in Ey.
           ++ by destruct (bst_left_not_right _ _ _ _ _ _ Hd Hbst Ely).
        -- intros _. apply retrieveItem_raw_assigned.
    + destruct (IHr Hr) as (R' & -> & Hfind & Hold); [tauto|]. simpl.
      exists (RCell d (raw l) R'). split; [done|]. split.
      * intros dataItem. simpl. rewrite Hd. simpl. by rewrite Eeq, Elt.
      * intros y dataItem. simpl. rewrite Hd. simpl.
        rewrite (keys_Cell _ _ _ _ _ Hd), elem_of_app, elem_of_cons.
        destruct (nd_eqb y v) eqn:Ey; [done|].
        destruct (nd_ltb y v) eqn:Ely.
        -- intros _. apply retrieveItem_raw_assigned.
        -- pose proof (nd_ltb_ge _ _ Ey Ely) as Egy.
           intros [Hy|[->|Hy]]; [| |by apply Hold].
           ++ by destruct (bst_right_not_left _ _ _ _ _ _ Hd Hbst Egy).
           ++ by rewrite nd_eqb_refl in Ey.
Qed.

(** X5: [insert] of a live element whose value is not in a tree that
    satisfies the BST invariant succeeds and adds the pointer to the data
    pointers of the tree; [retrieve] of that value then hands out the very
    pointer that was inserted, and [retrieve] of a value that was in the
    tree answers as it did before the insert. *)
Theorem insert_then_retrieve h (this : BinTree) p x :
  bst h (root this) → deref h p = Some x → x ∉ keys h (root this) →
  ∃ this',
    insert h (raw_tree this) p = Some (this', true)
    ∧ raw_inorder (raw_root this') ≡ₚ p :: inorder (root this)
    ∧ (∀ dataItem, retrieve_raw h this' x dataItem = Some (true, p))
    ∧ (∀ y dataItem, y ∈ keys h (root this) →
         retrieve_raw h this' y dataItem = retrieve h this y dataItem).
Proof.
  intros Hbst Hp Hnew.
  destruct (insertItem_absent h (root this) p x Hbst Hp Hnew)
    as (T' & Hins & Hfind & Hold).
  exists (mkRawTree T'). unfold insert, raw_tree. cbn [raw_root].
  rewrite Hins. split; [done|]. split; [|split; [exact Hfind | exact Hold]].
  pose proof (insertItem_moves h _ p _ _ Hins) as Hperm. simpl in Hperm.
  by rewrite raw_inorder_raw in Hperm.
Qed.

(** ** Depth *)

Lemma at_level_height h x t k : at_level h x t k → k ≤ Z.of_nat (height t).
Proof. induction 1; simpl; lia. Qed.

Lemma depth_any_tree h t x :
  Forall (λ p, is_Some (deref h p)) (inorder t) →
  ∃ k, depth h t x = Some k
    ∧ 0 ≤ k ≤ Z.of_nat (height t)
    ∧ (1 ≤ k ↔ x ∈ keys h t).
Proof.
  induction t as [|d l IHl r IHr]; simpl.
  - intros _. exists 0. split; [done|]. split; [lia|].
    split; [lia|]. intros Hin. by apply elem_of_nil in Hin.
  - rewrite Forall_app, Forall_cons. intros (Hl & [v Hd] & Hr).
    destruct (IHl Hl) as (kl & -> & Hkl & Hinl).
    destruct (IHr Hr) as (kr & -> & Hkr & Hinr).
    rewrite Hd. simpl. rewrite (keys_Cell _ _ _ _ _ Hd).
    setoid_rewrite elem_of_app. setoid_rewrite elem_of_cons.
    destruct (nd_eqb x v) eqn:Eeq.
    + apply nd_eqb_eq in Eeq as ->. exists 1. split; [done|].
      split; [lia|]. split; [auto|lia].
    + apply nd_eqb_neq in Eeq. simpl.
      destruct (Z.eqb_spec kl 0) as [->|Hkl0]; simpl.
      * destruct (Z.ltb_spec 0 kr).
        -- exists (kr + 1). split; [done|]. split; [lia|].
           split; [intros _; right; right; apply Hinr; lia | lia].
        -- exists kr. split; [done|]. split; [lia|]. split; [lia|].
           intros [Hin|[->|Hin]]; [apply Hinl in Hin; lia | done |].
           apply Hinr in Hin. lia.
      * destruct (Z.ltb_spec 0 kl); [|lia].
        exists (kl + 1). split; [done|]. split; [lia|].
        split; [intros _; left; apply Hinl; lia | lia].
Qed.

(** X6: [getDepth] does not rely on the order of the tree: on any tree of
    live elements, ordered or not, it returns a level between 0 and the
    height of the tree, and a level of at least 1 exactly for the values
    that the tree holds. *)
Theorem getDepth_exhaustive h (this : BinTree) x :
  Forall (λ p, is_Some (deref h p)) (inorder (root this)) →
  ∃ k, getDepth h this x = Some k
    ∧ 0 ≤ k ≤ Z.of_nat (height (root this))
    ∧ (1 ≤ k ↔ x ∈ keys h (root this)).
Proof. apply depth_any_tree. Qed.

(** X7: on a tree that satisfies the BST invariant [retrieve] and
    [getDepth] agree: [retrieve] reports success exactly when [getDepth]
    returns a level of at least 1. *)
Theorem retrieve_agrees_with_getDepth h (this : BinTree) x (dataItem : ptr) :
  bst h (root this) →
  ∃ b q k, retrieve h this x dataItem = Some (b, q)
    ∧ getDepth h this x = Some k
    ∧ (b = true ↔ 1 ≤ k).
Proof.
  intros Hbst. unfold retrieve.
  destruct (retrieveItem_spec h (root this) x dataItem Hbst)
    as (b & q & -> & Hiff & _).
  unfold getDepth.
  destruct (depth_any_tree h (root this) x) as (k & -> & _ & Hk).
  { apply all_keys_live. by apply bst_all_live. }
  exists b, q, k. split; [done|]. split; [done|]. by rewrite Hiff, Hk.
Qed.

(** ** Copies answer like their source *)

Lemma same_values_mono h g t h' g' t' :
  h ⊆ g → h' ⊆ g' → same_values h t h' t' → same_values g t g' t'.
Proof.
  intros Hsub Hsub'. revert t'.
  induction t as [|d l IHl r IHr]; intros [|d' l' r']; simpl; try done.
  intros ((v & Hv & Hv') & Hl & Hr).
  split; [|split; [by apply IHl | by apply IHr]].
  exists v. eauto using deref_weaken.
Qed.

Lemma same_values_restrict h g t h' t' :
  h ⊆ g → all_keys (λ _, True) h t →
  same_values g t h' t' → same_values h t h' t'.
Proof.
  intros Hsub. revert t'.
  induction t as [|d l IHl r IHr]; intros [|d' l' r']; simpl; try done.
  rewrite all_keys_Cell.
  intros (Hl & (w & Hw & _) & Hr) ((v & Hv & Hv') & Hsl & Hsr).
  split; [|split; [by apply IHl | by apply IHr]].
  exists v. split; [|done].
  rewrite (deref_weaken _ _ _ _ Hsub Hw) in Hv. congruence.
Qed.

Lemma same_values_keys h t h' t' :
  same_values h t h' t' → keys h' t' = keys h t.
Proof.
  revert t'. induction t as [|d l IHl r IHr]; intros [|d' l' r']; simpl;
    try done.
  intros ((v & Hv & Hv') & Hl & Hr).
  rewrite (keys_Cell _ _ _ _ _ Hv), (keys_Cell _ _ _ _ _ Hv').
  by rewrite (IHl _ Hl), (IHr _ Hr).
Qed.

Lemma same_values_live h t h' t' :
  same_values h t h' t' → all_keys (λ _, True) h' t'.
Proof.
  revert t'. induction t as [|d l IHl r IHr]; intros [|d' l' r']; simpl;
    try done.
  - intros _. apply all_keys_Null.
  - intros ((v & Hv & Hv') & Hl & Hr). apply all_keys_Cell. eauto 10.
Qed.

Lemma same_values_all_keys (P : NodeData → Prop) h t h' t' :
  same_values h t h' t' → all_keys P h t → all_keys P h' t'.
Proof.
  revert t'. induction t as [|d l IHl r IHr]; intros [|d' l' r'] Hs;
    simpl in Hs; try done.
  { intros _. apply all_keys_Null. }
  rewrite !all_keys_Cell. revert Hs.
  intros ((v & Hv & Hv') & Hl & Hr) (Hal & (w & Hw & HP) & Har).
  split; [eauto|]. split; [|eauto].
  exists v. split; [done|]. congruence.
Qed.

Lemma same_values_bst h t h' t' :
  same_values h t h' t' → bst h t → bst h' t'.
Proof.
  revert t'. induction t as [|d l IHl r IHr]; intros [|d' l' r']; simpl;
    try done.
  intros ((v & Hv & Hv') & Hl & Hr) (w & Hw & Hlt & Hgt & Hbl & Hbr).
  assert (w = v) as -> by congruence.
  exists v. split; [done|].
  split; [by eapply same_values_all_keys|].
  split; [by eapply same_values_all_keys|]. eauto.
Qed.

Lemma same_values_depth h t h' t' x :
  same_values h t h' t' → depth h' t' x = depth h t x.
Proof.
  revert t'. induction t as [|d l IHl r IHr]; intros [|d' l' r']; simpl;
    try done.
  intros ((v & Hv & Hv') & Hl & Hr).
  by rewrite Hv, Hv', (IHl _ Hl), (IHr _ Hr).
Qed.

Lemma same_values_retrieve h t h' t' x (dataItem : ptr) :
  same_values h t h' t' →
  fst <$> retrieveItem h' t' x dataItem = fst <$> retrieveItem h t x dataItem.
Proof.
  revert t'. induction t as [|d l IHl r IHr]; intros [|d' l' r']; simpl;
    try done.
  intros ((v & Hv & Hv') & Hl & Hr). rewrite Hv, Hv'. simpl.
  destruct (nd_eqb x v); [done|]. destruct (nd_ltb x v); auto.
Qed.

Lemma same_values_self h h' t :
  all_keys (λ _, True) h t →
  (∀ p, p ∈ inorder t → deref h' p = deref h p) →
  same_values h t h' t.
Proof.
  induction t as [|d l IHl r IHr]; [done|].
  rewrite all_keys_Cell. intros (Hl & (v & Hd & _) & Hr) Hsame.
  simpl in Hsame. simpl. split; [|split].
  - exists v. split; [done|]. rewrite Hsame; [done|].
    rewrite elem_of_app, elem_of_cons. auto.
  - apply IHl; [done|]. intros p Hp. apply Hsame.
    rewrite elem_of_app. auto.
  - apply IHr; [done|]. intros p Hp. apply Hsame.
    rewrite elem_of_app, elem_of_cons. auto.
Qed.

Lemma copyTree_same_values t :
  ∀ h h' t', all_keys (λ _, True) h t → copyTree h t = Some (h', t') →
  h ⊆ h' ∧ same_values h t h' t'.
Proof.
  induction t as [|d l IHl r IHr]; intros h h' t'.
  - intros _ [= <- <-]. done.
  - rewrite all_keys_Cell. intros (Hl & (v & Hd & _) & Hr).
    simpl. rewrite Hd. simpl.
    set (a := fresh (dom h)).
    assert (Ha : h !! a = None) by apply not_elem_of_dom, is_fresh.
    assert (S0 : h ⊆ <[a:=v]> h) by by apply insert_subseteq.
    destruct (copyTree (<[a:=v]> h) l) as [[h1 l']|] eqn:E1; simpl; [|done].
    destruct (copyTree h1 r) as [[h2 r']|] eqn:E2; simpl; [|done].
    intros [= <- <-].
    destruct (IHl _ _ _ (all_keys_weaken _ _ _ _ S0 Hl) E1) as [S1 V1].
    assert (S01 : h ⊆ h1) by by etrans.
    destruct (IHr _ _ _ (all_keys_weaken _ _ _ _ S01 Hr) E2) as [S2 V2].
    split; [by etrans|]. simpl. split; [|split].
    + exists v. split; [done|].
      eapply lookup_weaken; [|exact S2].
      eapply lookup_weaken; [|exact S1]. apply lookup_insert_eq.
    + eapply same_values_restrict; [exact S0 | done |].
      eapply same_values_mono; [reflexivity | exact S2 | exact V1].
    + eapply same_values_restrict; [exact S01 | done | exact V2].
Qed.

(** X10: the copy of a tree that satisfies the BST invariant satisfies it
    too, in a store that keeps every object there was, and the copy answers
    like its source: [operator<<] writes the same text, [getDepth] returns
    the same level and [retrieve] reports the same success for every
    value. *)
Theorem copy_answers_like_source h (orig : BinTree) :
  bst h (root orig) →
  ∃ h' copy,
    BinTree_copy h orig = Some (h', copy)
    ∧ h ⊆ h'
    ∧ bst h' (root copy)
    ∧ (∀ output, stream_out h' output copy = stream_out h output orig)
    ∧ (∀ x, getDepth h' copy x = getDepth h orig x)
    ∧ (∀ x dataItem,
         fst <$> retrieve h' copy x dataItem
         = fst <$> retrieve h orig x dataItem).
Proof.
  intros Hbst. pose proof (bst_all_live _ _ Hbst) as Hlive.
  unfold BinTree_copy.
  destruct (copyTree_spec (root orig) h Hlive) as (h' & t' & Hcopy & _).
  destruct (copyTree_same_values _ _ _ _ Hlive Hcopy) as [Hsub Hsame].
  rewrite Hcopy. simpl. exists h', (mkBinTree t'). simpl.
  split; [done|]. split; [done|].
  split; [by eapply same_values_bst|]. split; [|split].
  - intros output. unfold stream_out. simpl.
    rewrite (inorderHelper_render h' t') by by eapply same_values_live.
    rewrite (inorderHelper_render h (root orig)) by done.
    by rewrite (same_values_keys _ _ _ _ Hsame).
  - intros x. by apply same_values_depth.
  - intros x dataItem. by apply same_values_retrieve.
Qed.

(** X11: after a copy the two trees own separate elements: emptying the
    copy leaves every element of the original as it was, and emptying the
    original leaves every element of the copy as it was. *)
Theorem copy_then_empty_either h (orig : BinTree) :
  bst h (root orig) →
  ∃ h' copy, BinTree_copy h orig = Some (h', copy)
    ∧ (∃ h1, makeEmpty h' copy = Some (h1, BinTree_new)
             ∧ ∀ p, p ∈ inorder (root orig) → deref h1 p = deref h p)
    ∧ (∃ h2, makeEmpty h' orig = Some (h2, BinTree_new)
             ∧ ∀ p, p ∈ inorder (root copy) → deref h2 p = deref h' p).
Proof. apply copy_independent. Qed.

(** Assigning a tree to itself changes nothing. *)
Lemma op_assign_self h (objs : gmap addr BinTree) (this : addr) :
  is_Some (objs !! this) → op_assign h objs this this = Some (h, objs).
Proof.
  intros [T HT]. unfold op_assign. rewrite HT. simpl. by rewrite decide_True.
Qed.

(** [copyTree] changes the store at the addresses of the new elements
    only. *)
Lemma copyTree_frame t :
  ∀ h h' t', copyTree h t = Some (h', t') →
  ∀ a, Some a ∉ inorder t' → h' !! a = h !! a.
Proof.
  induction t as [|d l IHl r IHr]; intros h h' t'; simpl.
  - by intros [= <- <-].
  - destruct (deref h d) as [v|]; simpl; [|done].
    set (a0 := fresh (dom h)).
    destruct (copyTree (<[a0:=v]> h) l) as [[h1 l']|] eqn:E1; simpl; [|done].
    destruct (copyTree h1 r) as [[h2 r']|] eqn:E2; simpl; [|done].
    intros [= <- <-] a. simpl. rewrite elem_of_app, elem_of_cons.
    intros Hnot.
    rewrite (IHr _ _ _ E2 a) by tauto.
    rewrite (IHl _ _ _ E1 a) by tauto.
    apply lookup_insert_ne. intros ->. tauto.
Qed.

(** X12: assignment between two different tree objects whose trees satisfy
    the BST invariant and have no element object in common.  The elements
    of the left operand are released: none is left in the store, except at
    an address that an element of the new tree has taken.  The left
    operand becomes a tree of newly allocated elements, each at an address
    that was free or that the release has freed, no two at the same
    address, with the shape and the values of the right operand; it
    satisfies the BST invariant and holds no pointer of the right operand.
    The right operand, its elements and every other object of the store
    are as before. *)
Theorem op_assign_copies h (objs : gmap addr BinTree) (this rhs : addr)
    (lhs_tree rhs_tree : BinTree) :
  objs !! this = Some lhs_tree → objs !! rhs = Some rhs_tree →
  this ≠ rhs →
  bst h (root lhs_tree) → bst h (root rhs_tree) →
  (∀ p, p ∈ inorder (root lhs_tree) → p ∉ inorder (root rhs_tree)) →
  ∃ h' new_tree,
    op_assign h objs this rhs = Some (h', <[this := new_tree]> objs)
    ∧ same_values h (root rhs_tree) h' (root new_tree)
    ∧ bst h' (root new_tree)
    ∧ bst h' (root rhs_tree)
    ∧ (∀ p, p ∈ inorder (root rhs_tree) → deref h' p = deref h p)
    ∧ (∀ p, p ∈ inorder (root new_tree) → p ∉ inorder (root rhs_tree))
    ∧ NoDup (inorder (root new_tree))
    ∧ (∀ a, Some a ∈ inorder (root lhs_tree) →
            Some a ∉ inorder (root new_tree) → h' !! a = None)
    ∧ (∀ a, Some a ∈ inorder (root new_tree) →
            Some a ∈ inorder (root lhs_tree) ∨ h !! a = None)
    ∧ (∀ a, Some a ∉ inorder (root lhs_tree) →
            Some a ∉ inorder (root new_tree) → h' !! a = h !! a).
Proof.
  intros Hthis Hrhs Hne Hbl Hbr Hdisj. unfold op_assign.
  rewrite Hthis, Hrhs. simpl. rewrite decide_False by done.
  destruct (destroyTree_spec (root lhs_tree) h) as (h1 & -> & Hh1).
  { by eapply bst_inorder_NoDup. }
  { apply all_keys_live. by apply bst_all_live. }
  simpl.
  assert (Hsub1 : h1 ⊆ h).
  { apply map_subseteq_spec. intros a w. rewrite Hh1.
    by case_decide. }
  assert (Hkeep : ∀ p, p ∈ inorder (root rhs_tree) → deref h1 p = deref h p).
  { intros [a|] Hp; [|done]. simpl. rewrite Hh1.
    rewrite decide_False; [done|]. intros Hin. by apply (Hdisj _ Hin). }
  assert (Hlive1 : all_keys (λ _, True) h1 (root rhs_tree)).
  { pose proof (bst_all_live _ _ Hbr) as Hlive. unfold all_keys in *.
    rewrite Forall_forall in Hlive |- *. intros p Hp.
    rewrite (Hkeep p Hp). by apply Hlive. }
  destruct (copyTree_spec (root rhs_tree) h1 Hlive1)
    as (h2 & t' & Hcopy & _ & _ & _ & Hnd & Hfresh).
  destruct (copyTree_same_values _ _ _ _ Hlive1 Hcopy) as [Hsub2 Hsame].
  pose proof (copyTree_frame _ _ _ _ Hcopy) as Hframe.
  rewrite Hcopy. simpl. exists h2, (mkBinTree t'). simpl.
  assert (Hsame' : same_values h (root rhs_tree) h2 t').
  { eapply same_values_mono; [exact Hsub1 | reflexivity | exact Hsame]. }
  assert (Hkeep2 : ∀ p, p ∈ inorder (root rhs_tree) → deref h2 p = deref h p).
  { intros p Hp. unfold all_keys in Hlive1. rewrite Forall_forall in Hlive1.
    destruct (Hlive1 p Hp) as (w & Hw & _).
    rewrite (deref_weaken _ _ _ _ Hsub2 Hw). rewrite <- Hw. by apply Hkeep. }
  rewrite Forall_forall in Hfresh.
  split; [done|]. split; [done|].
  split; [by eapply same_values_bst|].
  split; [|split; [done|]; split; [|split; [done|]; split; [|split]]].
  - assert (Hself : same_values h (root rhs_tree) h2 (root rhs_tree)).
    { apply same_values_self; [by apply bst_all_live | done]. }
    by eapply same_values_bst.
  - intros p Hp Hp'. destruct (Hfresh p Hp) as [_ Hnone].
    unfold all_keys in Hlive1. rewrite Forall_forall in Hlive1.
    destruct (Hlive1 p Hp') as (w & Hw & _). congruence.
  - intros a Hold Hnew. rewrite (Hframe a Hnew), Hh1.
    by rewrite decide_True.
  - intros a Hnew. destruct (Hfresh _ Hnew) as [_ Hnone]. simpl in Hnone.
    rewrite Hh1 in Hnone.
    destruct (decide (Some a ∈ inorder (root lhs_tree))); auto.
  - intros a Hold Hnew. rewrite (Hframe a Hnew), Hh1.
    by rewrite decide_False.
Qed.

(** ** The sideways display *)

Lemma indent_loop_steps n :
  ∀ output i, Z.of_nat n = i + 1 →
  indent_loop n output i = Some (output +:+ spaces n).
Proof.
  induction n as [|n IH]; intros output i Hn.
  - simpl. destruct (Z.leb_spec 0 i); [lia|].
    by rewrite string_app_empty_r.
  - simpl. destruct (Z.leb_spec 0 i); [|lia].
    rewrite IH by lia. by rewrite string_app_assoc.
Qed.

Lemma indent_loop_level output level :
  indent_loop (Z.to_nat (level + 1)) output level
  = Some (output +:+ spaces (Z.to_nat (level + 1))).
Proof.
  destruct (Z.le_gt_cases 0 (level + 1)).
  - apply indent_loop_steps. lia.
  - replace (Z.to_nat (level + 1)) with O by lia. simpl.
    destruct (Z.leb_spec 0 level); [lia|].
    by rewrite string_app_empty_r.
Qed.

Lemma side_text_app (c1 c2 : list (Z * NodeData)) :
  side_text (c1 ++ c2) = side_text c1 +:+ side_text c2.
Proof.
  induction c1 as [|c c1 IH]; [done|].
  unfold side_text in *. simpl. rewrite IH.
  by rewrite !string_app_assoc.
Qed.

Lemma sideways_cells h t :
  ∀ level, all_keys (λ _, True) h t →
  ∃ cells : list (Z * NodeData),
    (∀ output, sideways h output t level = Some (output +:+ side_text cells))
    ∧ cells.*2 = reverse (keys h t)
    ∧ Forall (λ c, at_level h c.2 t (c.1 - level)) cells.
Proof.
  induction t as [|d l IHl r IHr]; intros level.
  - intros _. exists []. split; [|done].
    intros output. simpl. by rewrite string_app_empty_r.
  - rewrite all_keys_Cell. intros (Hl & (v & Hd & _) & Hr).
    destruct (IHr (level + 1) Hr) as (cr & Hsr & Hkr & Har).
    destruct (IHl (level + 1) Hl) as (cl & Hsl & Hkl & Hal).
    exists (cr ++ (level + 1, v) :: cl). split; [|split].
    + intros output. simpl. rewrite Hsr. simpl.
      rewrite indent_loop_level. simpl. rewrite Hd. simpl. rewrite Hsl.
      rewrite side_text_app. unfold side_text at 3. simpl.
      fold (side_text cl). by rewrite !string_app_assoc.
    + rewrite fmap_app, fmap_cons, Hkr, Hkl. simpl.
      rewrite (keys_Cell _ _ _ _ _ Hd), reverse_app, reverse_cons.
      by rewrite <- app_assoc.
    + apply Forall_app. split; [|apply Forall_cons; split].
      * eapply Forall_impl; [exact Har|]. intros c Hc. simpl in Hc.
        replace (c.1 - level) with (c.1 - (level + 1) + 1) by lia.
        by apply at_level_right.
      * simpl. replace (level + 1 - level) with 1 by lia.
        eapply at_level_here; [exact Hd|]. apply nd_eqb_refl.
      * eapply Forall_impl; [exact Hal|]. intros c Hc. simpl in Hc.
        replace (c.1 - level) with (c.1 - (level + 1) + 1) by lia.
        by apply at_level_left.
Qed.

(** X13: on a tree that satisfies the BST invariant [displaySideways]
    writes one line for each element, in descending order (the reverse of
    the inorder sequence); the line of an element is indented by one step
    of four spaces more than the level [getDepth] reports for it, and ends
    with the element and a line break. *)
Theorem displaySideways_lines h (this : BinTree) :
  bst h (root this) →
  ∃ cells : list (Z * NodeData),
    (∀ output,
       displaySideways h output this = Some (output +:+ side_text cells))
    ∧ cells.*2 = reverse (keys h (root this))
    ∧ Forall (λ c, getDepth h this c.2 = Some c.1) cells.
Proof.
  intros Hbst.
  destruct (sideways_cells h (root this) 0 (bst_all_live _ _ Hbst))
    as (cells & Hout & Hkeys & Hat).
  exists cells. split; [done|]. split; [done|].
  eapply Forall_impl; [exact Hat|]. intros c Hc. simpl in Hc.
  rewrite Z.sub_0_r in Hc. unfold getDepth. by apply depth_at_level.
Qed.

(** ** Export to an array, whatever the array holds *)

(** X14: [bstreeToArray] on any tree and any buffer with at least
    [10 + n] slots for the [n] cells of the tree: the data pointers of the
    tree overwrite the slots [10 .. 10 + n - 1], in inorder, whatever those
    slots held; every other slot keeps its content, the tree ends up empty
    and no object of the store is deleted. *)
Theorem toArray_overwrites_slots h (this : BinTree) (target : list ptr) :
  (10 + size (root this) ≤ length target)%nat →
  ∃ target',
    bstreeToArray h this target = Some (h, BinTree_new, target')
    ∧ length target' = length target
    ∧ take 10 target' = take 10 target
    ∧ take (size (root this)) (drop 10 target') = inorder (root this)
    ∧ drop (10 + size (root this)) target'
      = drop (10 + size (root this)) target.
Proof.
  intros Hlen. rewrite bstreeToArray_spec by done.
  eexists. split; [done|].
  assert (Hpre : length (take 10 target) = 10%nat)
    by (rewrite length_take; lia).
  split; [|split; [|split]].
  - rewrite !length_app, Hpre, length_drop, inorder_length. lia.
  - by rewrite take_app_length' by done.
  - rewrite drop_app_length' by done.
    by rewrite take_app_length' by by rewrite inorder_length.
  - rewrite app_assoc. rewrite drop_app_length'; [done|].
    by rewrite length_app, Hpre, inorder_length.
Qed.

Lemma inorderToArray_beyond t :
  ∀ (target : list ptr) (i : nat),
    t ≠ Null → (length target < i + size t)%nat →
    inorderToArray t target (Z.of_nat i) = None.
Proof.
  induction t as [|d l IHl r _]; intros target i Hne Hlen; [done|].
  destruct (decide (i ≤ length target)%nat) as [Hi|Hi].
  { apply inorderToArray_overflow. lia. }
  simpl. destruct l as [|d' l' r'].
  - simpl. rewrite store_out_of_range by lia. done.
  - rewrite IHl; [done | done | simpl; lia].
Qed.

(** X15: [bstreeToArray] runs into undefined behaviour exactly when the
    tree is not empty and the buffer has fewer than [10 + n] slots for the
    [n] cells of the tree. *)
Theorem toArray_fails_exactly_on_overflow h (this : BinTree)
    (target : list ptr) :
  bstreeToArray h this target = None
  ↔ root this ≠ Null ∧ (length target < 10 + size (root this))%nat.
Proof.
  split.
  - intros Hnone.
    destruct (decide (10 + size (root this) ≤ length target)%nat) as [Hfit|Hfit].
    { by rewrite bstreeToArray_spec in Hnone. }
    split; [|lia]. intros Hnull. unfold bstreeToArray in Hnone.
    rewrite Hnull in Hnone. done.
  - intros [Hne Hlen]. unfold bstreeToArray.
    change 10 with (Z.of_nat 10).
    by rewrite inorderToArray_beyond.
Qed.

(** ** Import from an array, whatever the run holds *)

Lemma filter_live (l : list ptr) :
  Forall (λ p, p ≠ None) l → filter (λ p : ptr, p ≠ None) l = l.
Proof.
  induction 1 as [|p l Hp _ IH]; [done|].
  rewrite filter_cons_True by done. by rewrite IH.
Qed.

(** Length bookkeeping for the segments of an array. *)
Ltac seg_length := rewrite ?length_app; simpl; rewrite ?length_replicate; lia.

(** [bisectBuild] on a range of non-null pointers that starts after slot 0:
    each slot of the range is cleared or left as it was, and the pointers
    of the cleared slots are the ones the tree gained. *)
Lemma bisectBuild_conserves (fuel : nat) h :
  ∀ (this : RawTree) (pre seg post : list ptr) (low high : Z) this' source',
    low = Z.of_nat (length pre) → 1 ≤ low →
    high = low + Z.of_nat (length seg) - 1 →
    Forall (λ p, p ≠ None) seg →
    bisectBuild fuel h this (pre ++ seg ++ post) low high
      = Some (this', source') →
    ∃ seg', source' = pre ++ seg' ++ post
      ∧ Forall2 (λ p' p : ptr, p' = None ∨ p' = p) seg' seg
      ∧ raw_inorder (raw_root this') ++ filter (λ p : ptr, p ≠ None) seg'
        ≡ₚ raw_inorder (raw_root this) ++ seg.
Proof.
  induction fuel as [|fuel IH];
    intros this pre seg post low high this' source' Hlow Hpos Hhigh Hlive;
    [done|].
  destruct (decide (seg = [])) as [->|Hne].
  - rewrite bisectBuild_empty by (simpl in Hhigh; lia).
    intros [= <- <-]. exists []. split; [done|]. split; [constructor|done].
  - destruct (bisect_split seg Hne) as (s1 & p & s2 & -> & Hmid).
    replace ((s1 ++ p :: s2) ++ post) with (s1 ++ p :: s2 ++ post)
      by by rewrite <- app_assoc.
    rewrite (bisectBuild_step fuel h this pre s1 s2 post p low high)
      by (done || seg_length || (rewrite length_app in Hhigh; simpl in Hhigh; lia)).
    apply Forall_app in Hlive as [Hlive1 Hlive2].
    apply Forall_cons in Hlive2 as [Hp Hlive2].
    destruct (insert h this p) as [[this1 b]|] eqn:Eins; simpl; [|done].
    assert (Hmoved : if b then raw_inorder (raw_root this1)
                                 ≡ₚ p :: raw_inorder (raw_root this)
                     else raw_root this1 = raw_root this).
    { unfold insert in Eins.
      destruct (insertItem h (raw_root this) p) as [[r b']|] eqn:E;
        simpl in Eins; [|done].
      injection Eins as <- <-. by apply (insertItem_moves _ _ _ _ _ E). }
    destruct b.
    + destruct (bisectBuild fuel h this1 _ low _) as [[this2 source2]|] eqn:E1;
        simpl; [|done].
      apply (IH this1 pre s1 (None :: s2 ++ post)) in E1
        as (s1' & -> & Hs1' & Hperm1); [|done|done|lia|done].
      replace (pre ++ s1' ++ None :: s2 ++ post)
        with ((pre ++ s1' ++ [None]) ++ s2 ++ post)
        by (rewrite <- !app_assoc; done).
      intros E2.
      pose proof (Forall2_length _ _ _ Hs1') as Hlen1.
      apply (IH this2 (pre ++ s1' ++ [None]) s2 post) in E2
        as (s2' & -> & Hs2' & Hperm2); [|seg_length|lia| |done].
      * exists (s1' ++ None :: s2'). split; [by rewrite <- !app_assoc|].
        split.
        { apply Forall2_app; [done|]. constructor; [by left | done]. }
        rewrite filter_app, filter_cons_False by (intros Hn; by apply Hn).
        rewrite (app_assoc (raw_inorder (raw_root this'))).
        rewrite (Permutation_app_comm (raw_inorder (raw_root this'))).
        rewrite <- app_assoc, Hperm2.
        rewrite app_assoc.
        rewrite (Permutation_app_comm (filter _ s1')).
        rewrite Hperm1, Hmoved. rewrite <- !Permutation_middle.
        simpl. by rewrite <- app_assoc.
      * rewrite length_app in Hhigh. simpl in Hhigh. lia.
    + intros [= <- <-]. exists (s1 ++ p :: s2).
      split; [by rewrite <- app_assoc|]. split.
      * apply Forall_Forall2_diag. apply Forall_forall. auto.
      * rewrite Hmoved. rewrite filter_live; [done|].
        apply Forall_app. split; [done|]. by apply Forall_cons.
Qed.

(** X16: when [arrayToBSTree] returns on an array in which the scan stays
    in bounds, no element of the run of non-empty slots from index 10 is
    lost or owned twice: each slot of the run is either cleared or left as
    it was, the tree holds exactly the pointers of the cleared slots, and
    the slots outside of the run are left as they were. *)
Theorem fromArray_conserves_elements h (this : BinTree) (source : list ptr)
    h' (this' : RawTree) source' :
  scan_in_bounds source →
  arrayToBSTree h this source = Some (h', this', source') →
  ∃ seg',
    source' = take 10 source ++ seg'
                ++ drop (10 + length (run_of source)) source
    ∧ Forall2 (λ p' p : ptr, p' = None ∨ p' = p) seg' (run_of source)
    ∧ raw_inorder (raw_root this') ++ filter (λ p : ptr, p ≠ None) seg'
      ≡ₚ run_of source.
Proof.
  intros Hlen Hrun.
  assert (∃ h1, makeEmpty h this = Some (h1, BinTree_new)) as [h1 Hempty].
  { unfold arrayToBSTree in Hrun. unfold makeEmpty in *.
    destruct (destroyTree h (root this)) as [[h1 r]|] eqn:E; [|done].
    rewrite (destroyTree_Null _ _ _ _ E). eauto. }
  rewrite (arrayToBSTree_run h this h1) in Hrun by done.
  pose proof (run_of_split source) as Hsplit.
  pose proof (leading_live (take 90 (drop 10 source))) as Hlive.
  fold (run_of source) in Hlive.
  unfold scan_in_bounds in Hlen.
  destruct (run_of source) as [|p run] eqn:Erun.
  - injection Hrun as _ <- <-. exists []. split; [done|].
    split; [constructor | done].
  - rewrite Hsplit in Hrun at 1.
    destruct (bisectBuild 100 h1 (raw_tree BinTree_new) _ 10 _)
      as [[this1 source1]|] eqn:E; simpl in Hrun; [|done].
    injection Hrun as _ <- <-.
    apply bisectBuild_conserves in E as (seg' & -> & Hseg' & Hperm);
      [eauto| |lia|done|done].
    rewrite length_take. simpl in Hlen. lia.
Qed.




End MoreProperties.

(** ** The further properties on integer elements *)

Lemma live_tree5 :
  Forall (λ p, is_Some (deref store5 p)) (inorder (root tree5)).
Proof.
  apply Forall_forall. intros p Hp. vm_compute in Hp.
  repeat (apply elem_of_cons in Hp as [->|Hp]; [by eexists|]).
  by apply elem_of_nil in Hp.
Qed.


Lemma bst_tree5_two : bst store5 (root tree5_two).
Proof. apply bst_by_sorted_keys; by vm_compute. Qed.

Lemma makeEmpty_deletes_own_elements_witness :
  NoDup (inorder (root tree5))
  ∧ Forall (λ p, is_Some (deref store5 p)) (inorder (root tree5))
  ∧ ∃ h' this',
      makeEmpty store5 tree5 = Some (h', this')
      ∧ isEmpty this' = true
      ∧ ∀ a, h' !! a
             = if decide (Some a ∈ inorder (root tree5)) then None
               else store5 !! a.
Proof.
  assert (Hnd : NoDup (inorder (root tree5))).
  { refine (bool_decide_unpack _ _). by vm_compute. }
  split; [exact Hnd|]. split; [exact live_tree5|].
  exact (makeEmpty_deletes_own_elements store5 tree5 Hnd live_tree5).
Defined.

Lemma shared_element_deleted_twice_witness :
  Some 1%positive ∈ inorder (root tree5_one)
  ∧ Some 1%positive ∈ inorder (root tree5)
  ∧ makeEmpty store5 tree5_one = Some (delete 1%positive store5, BinTree_new)
  ∧ delete 1%positive store5 !! 1%positive = None
  ∧ makeEmpty (delete 1%positive store5) tree5 = None.
Proof.
  assert (H1 : Some 1%positive ∈ inorder (root tree5_one)).
  { refine (bool_decide_unpack _ _). by vm_compute. }
  assert (H2 : Some 1%positive ∈ inorder (root tree5)).
  { refine (bool_decide_unpack _ _). by vm_compute. }
  assert (H3 : makeEmpty store5 tree5_one
               = Some (delete 1%positive store5, BinTree_new))
    by (vm_compute; reflexivity).
  split; [exact H1|]. split; [exact H2|]. split; [exact H3|].
  exact (shared_element_deleted_twice store5 tree5_one tree5
           (delete 1%positive store5) BinTree_new 1%positive H1 H2 H3).
Defined.


Lemma insert_then_retrieve_witness :
  bst store5 (root tree5_one)
  ∧ deref store5 (Some 2%positive) = Some 3
  ∧ (3 ∉ keys store5 (root tree5_one))
  ∧ ∃ this',
      insert store5 (raw_tree tree5_one) (Some 2%positive)
        = Some (this', true)
      ∧ raw_inorder (raw_root this')
        ≡ₚ Some 2%positive :: inorder (root tree5_one)
      ∧ (∀ dataItem,
           retrieve_raw store5 this' 3 dataItem
           = Some (true, Some 2%positive))
      ∧ (∀ y dataItem, y ∈ keys store5 (root tree5_one) →
           retrieve_raw store5 this' y dataItem
           = retrieve store5 tree5_one y dataItem).
Proof.
  assert (Hnew : 3 ∉ keys store5 (root tree5_one)).
  { vm_compute. intros Hin.
    repeat (apply elem_of_cons in Hin as [Hin|Hin]; [discriminate|]).
    by apply elem_of_nil in Hin. }
  split; [exact bst_tree5_one|]. split; [reflexivity|]. split; [exact Hnew|].
  exact (insert_then_retrieve store5 tree5_one (Some 2%positive) 3
           bst_tree5_one eq_refl Hnew).
Defined.

Lemma getDepth_exhaustive_witness :
  Forall (λ p, is_Some (deref store5 p)) (inorder (root tree5))
  ∧ ∃ k, getDepth store5 tree5 4 = Some k
      ∧ 0 ≤ k ≤ Z.of_nat (height (root tree5))
      ∧ (1 ≤ k ↔ 4 ∈ keys store5 (root tree5)).
Proof.
  split; [exact live_tree5|].
  exact (getDepth_exhaustive store5 tree5 4 live_tree5).
Defined.

Lemma retrieve_agrees_with_getDepth_witness :
  bst store5 (root tree5)
  ∧ ∃ b q k, retrieve store5 tree5 8 None = Some (b, q)
      ∧ getDepth store5 tree5 8 = Some k
      ∧ (b = true ↔ 1 ≤ k).
Proof.
  split; [exact bst_tree5|].
  exact (retrieve_agrees_with_getDepth store5 tree5 8 None bst_tree5).
Defined.

Lemma copy_answers_like_source_witness :
  bst store5 (root tree5)
  ∧ ∃ h' copy,
      BinTree_copy store5 tree5 = Some (h', copy)
      ∧ store5 ⊆ h'
      ∧ bst h' (root copy)
      ∧ (∀ output,
           stream_out h' output copy = stream_out store5 output tree5)
      ∧ (∀ x, getDepth h' copy x = getDepth store5 tree5 x)
      ∧ (∀ x dataItem,
           fst <$> retrieve h' copy x dataItem
           = fst <$> retrieve store5 tree5 x dataItem).
Proof.
  split; [exact bst_tree5|].
  exact (copy_answers_like_source store5 tree5 bst_tree5).
Defined.

Lemma copy_then_empty_either_witness :
  bst store5 (root tree5)
  ∧ ∃ h' copy, BinTree_copy store5 tree5 = Some (h', copy)
      ∧ (∃ h1, makeEmpty h' copy = Some (h1, BinTree_new)
               ∧ ∀ p, p ∈ inorder (root tree5) →
                      deref h1 p = deref store5 p)
      ∧ (∃ h2, makeEmpty h' tree5 = Some (h2, BinTree_new)
               ∧ ∀ p, p ∈ inorder (root copy) → deref h2 p = deref h' p).
Proof.
  split; [exact bst_tree5|].
  exact (copy_then_empty_either store5 tree5 bst_tree5).
Defined.

Lemma op_assign_copies_witness :
  objs5 !! 1%positive = Some tree5_one
  ∧ objs5 !! 2%positive = Some tree5_two
  ∧ 1%positive ≠ 2%positive
  ∧ bst store5 (root tree5_one)
  ∧ bst store5 (root tree5_two)
  ∧ (∀ p, p ∈ inorder (root tree5_one) → p ∉ inorder (root tree5_two))
  ∧ ∃ h' new_tree,
      op_assign store5 objs5 1%positive 2%positive
        = Some (h', <[1%positive := new_tree]> objs5)
      ∧ same_values store5 (root tree5_two) h' (root new_tree)
      ∧ bst h' (root new_tree)
      ∧ bst h' (root tree5_two)
      ∧ (∀ p, p ∈ inorder (root tree5_two) → deref h' p = deref store5 p)
      ∧ (∀ p, p ∈ inorder (root new_tree) → p ∉ inorder (root tree5_two))
      ∧ NoDup (inorder (root new_tree))
      ∧ (∀ a, Some a ∈ inorder (root tree5_one) →
              Some a ∉ inorder (root new_tree) → h' !! a = None)
      ∧ (∀ a, Some a ∈ inorder (root new_tree) →
              Some a ∈ inorder (root tree5_one) ∨ store5 !! a = None)
      ∧ (∀ a, Some a ∉ inorder (root tree5_one) →
              Some a ∉ inorder (root new_tree) → h' !! a = store5 !! a).
Proof.
  assert (H1 : objs5 !! 1%positive = Some tree5_one) by reflexivity.
  assert (H2 : objs5 !! 2%positive = Some tree5_two) by reflexivity.
  assert (Hne : 1%positive ≠ 2%positive) by discriminate.
  assert (Hdisj : ∀ p, p ∈ inorder (root tree5_one) →
                       p ∉ inorder (root tree5_two)).
  { intros p Hp Hq. simpl in Hp, Hq.
    apply list_elem_of_singleton in Hp. apply list_elem_of_singleton in Hq.
    congruence. }
  split; [exact H1|]. split; [exact H2|]. split; [exact Hne|].
  split; [exact bst_tree5_one|]. split; [exact bst_tree5_two|].
  split; [exact Hdisj|].
  exact (op_assign_copies store5 objs5 1%positive 2%positive tree5_one
           tree5_two H1 H2 Hne bst_tree5_one bst_tree5_two Hdisj).
Defined.

Lemma displaySideways_lines_witness :
  bst store5 (root tree5)
  ∧ ∃ cells : list (Z * Z),
      (∀ output,
         displaySideways store5 output tree5
         = Some (output +:+ side_text cells))
      ∧ cells.*2 = reverse (keys store5 (root tree5))
      ∧ Forall (λ c, getDepth store5 tree5 c.2 = Some c.1) cells.
Proof.
  split; [exact bst_tree5|].
  exact (displaySideways_lines store5 tree5 bst_tree5).
Defined.

Lemma toArray_overwrites_slots_witness :
  (10 + size (root tree5_one) ≤ length source5)%nat
  ∧ ∃ target',
      bstreeToArray store5 tree5_one source5
        = Some (store5, BinTree_new, target')
      ∧ length target' = length source5
      ∧ take 10 target' = take 10 source5
      ∧ take (size (root tree5_one)) (drop 10 target')
        = inorder (root tree5_one)
      ∧ drop (10 + size (root tree5_one)) target'
        = drop (10 + size (root tree5_one)) source5.
Proof.
  assert (Hfit : (10 + size (root tree5_one) ≤ length source5)%nat)
    by (vm_compute; lia).
  split; [exact Hfit|].
  exact (toArray_overwrites_slots store5 tree5_one source5 Hfit).
Defined.

Lemma fromArray_conserves_elements_witness :
  scan_in_bounds source_twins
  ∧ arrayToBSTree store_twins BinTree_new source_twins
    = Some (store_twins,
            mkRawTree (RCell (Some 1%positive) Unassigned Unassigned),
            empty_array 11 ++ [Some 2%positive] ++ empty_array 88)
  ∧ ∃ seg',
      empty_array 11 ++ [Some 2%positive] ++ empty_array 88
      = take 10 source_twins ++ seg'
          ++ drop (10 + length (run_of source_twins)) source_twins
      ∧ Forall2 (λ p' p : ptr, p' = None ∨ p' = p) seg' (run_of source_twins)
      ∧ [Some 1%positive] ++ filter (λ p : ptr, p ≠ None) seg'
        ≡ₚ run_of source_twins.
Proof.
  assert (Hscan : scan_in_bounds source_twins) by (right; vm_compute; lia).
  assert (Hrun : arrayToBSTree store_twins BinTree_new source_twins
                 = Some (store_twins,
                         mkRawTree
                           (RCell (Some 1%positive) Unassigned Unassigned),
                         empty_array 11 ++ [Some 2%positive]
                           ++ empty_array 88))
    by (vm_compute; reflexivity).
  split; [exact Hscan|]. split; [exact Hrun|].
  exact (fromArray_conserves_elements store_twins BinTree_new source_twins
           _ _ _ Hscan Hrun).
Defined.


Lemma op_eq_same_pointers_witness :
  (op_eq twin1 twin2 = true ↔ twin1 = twin2)
  ∧ (op_ne twin1 twin2 = true ↔ twin1 ≠ twin2).
Proof. exact (op_eq_same_pointers twin1 twin2). Defined.

Lemma toArray_fails_exactly_on_overflow_witness :
  bstreeToArray store5 tree5 (empty_array 12) = None.
Proof.
  apply (toArray_fails_exactly_on_overflow store5 tree5 (empty_array 12)).
  split; [discriminate | vm_compute; lia].
Defined.
